(** * ICON_IDS, [notebook/Utils.py]: the notebook helpers

    A shallow embedding of the six helpers of [notebook/Utils.py] and of the
    parts of pandas, NumPy and Matplotlib they call, followed by the
    properties of the helpers.

    - Tables live in a store ([heap]) and are passed by reference, as Python
      objects are; the helpers are computations in a state-and-exception
      monad [py] over that store and over the list of plotting calls made so
      far ([canvas]).
    - Column values are [cell]s; [NA] is the missing marker (NaN / None).
    - [float64] is modelled by rationals that are rounded to 53 significant
      bits after every operation (round to nearest, ties to even). *)

From Stdlib Require Import ZArith QArith Qround Qabs Qpower Lia Lqa.
From Stdlib Require Import Floats Uint63.
From stdpp Require Import base option list sorting gmap sets strings pretty.

Open Scope Z_scope.

(** ** binary64 arithmetic *)

Module Float64.

(** Floats are rationals in lowest terms.  The exponent range is not
    modelled: counts are [int64] values, so every intermediate result of the
    helpers stays far inside the normal range of binary64. *)
Definition float := Q.

Definition prec : Z := 53.

(** [rne q]: the integer nearest to [q], ties to the even one (what
    [rint] does to an exact value). *)
Definition rne (q : Q) : Z :=
  let f := Qfloor q in
  match (q - inject_Z f ?= 1 # 2)%Q with
  | Lt => f
  | Gt => f + 1
  | Eq => if Z.even f then f else f + 1
  end.

(** [pow2 e] is 2^e for any integer [e]. *)
Definition pow2 (e : Z) : Q := (2 ^ e)%Q.

(** [ilog2 q], for [0 < q], is the [e] with [2^e <= q < 2^(e+1)]. *)
Definition ilog2 (q : Q) : Z :=
  let d := Z.log2 (Qnum q) - Z.log2 (Zpos (Qden q)) in
  if Qle_bool (pow2 d) q then d else d - 1.

(** [round q]: the binary64 value nearest to [q]. *)
Definition round (q : Q) : float :=
  match Qnum q with
  | Z0 => 0%Q
  | Zpos _ =>
      let e := ilog2 q in
      Qred (inject_Z (rne (q * pow2 (prec - 1 - e))) * pow2 (e - (prec - 1)))
  | Zneg _ =>
      let e := ilog2 (- q) in
      Qred (- (inject_Z (rne (- q * pow2 (prec - 1 - e))) * pow2 (e - (prec - 1))))
  end.

(** Conversion of an integer, and a decimal literal of the source. *)
Definition of_int (z : Z) : float := round (inject_Z z).
Definition literal (q : Q) : float := round q.

(** The operations are correctly rounded, as IEEE 754 prescribes.  The
    helpers divide by the number of rows, or by a sum of counts, only when
    there is a count to divide, and then the divisor is not 0. *)
Definition add (x y : float) : float := round (x + y).
Definition mul (x y : float) : float := round (x * y).
Definition div (x y : float) : float := round (x / y).

(** [rint]: round half to even, to an integral float. *)
Definition rint (x : float) : float := inject_Z (rne x).

Definition ltb (x y : float) : bool := negb (Qle_bool y x).

End Float64.

Abbreviation float := Float64.float.

(** ** Values, series and tables *)

Inductive cell : Type :=
  | NA                (* missing: NaN, None *)
  | Str (s : string)
  | Int (z : Z)
  | Flt (x : float).

#[global] Instance Q_eq_dec : EqDecision Q.
Proof. solve_decision. Defined.

#[global] Instance cell_eq_dec : EqDecision cell.
Proof. solve_decision. Defined.

#[global] Instance Q_countable : Countable Q :=
  inj_countable' (λ q, (Qnum q, Qden q)) (λ p, Qmake p.1 p.2)
    (λ q, match q with Qmake _ _ => eq_refl end).

Definition cell_encode (c : cell) : unit + (string + (Z + Q)) :=
  match c with
  | NA => inl ()
  | Str s => inr (inl s)
  | Int z => inr (inr (inl z))
  | Flt x => inr (inr (inr x))
  end.

Definition cell_decode (s : unit + (string + (Z + Q))) : cell :=
  match s with
  | inl _ => NA
  | inr (inl s) => Str s
  | inr (inr (inl z)) => Int z
  | inr (inr (inr x)) => Flt x
  end.

#[global] Instance cell_countable : Countable cell :=
  inj_countable' cell_encode cell_decode
    (λ c, match c with NA | Str _ | Int _ | Flt _ => eq_refl end).

(** [isna]: the test pandas uses to find missing entries. *)
Definition isna (c : cell) : bool :=
  match c with NA => true | _ => false end.

(** A series: index labels paired with values. *)
Abbreviation Series A := (list (cell * A)).

Definition s_index {A} (s : Series A) : list cell := s.*1.
Definition s_values {A} (s : Series A) : list A := s.*2.

(** A table: row labels, and named columns in order. *)
Record DataFrame : Type := mkDataFrame {
  df_index : list cell;
  df_columns : list (string * list cell)
}.

#[global] Instance DataFrame_eq_dec : EqDecision DataFrame.
Proof. solve_decision. Defined.

(** Tables are rectangular. *)
Definition rectangular (T : DataFrame) : Prop :=
  Forall (λ c, length c.2 = length (df_index T)) (df_columns T).

#[global] Instance rectangular_dec T : Decision (rectangular T).
Proof. unfold rectangular. apply _. Defined.

Fixpoint assoc {A} (k : string) (l : list (string * A)) : option A :=
  match l with
  | [] => None
  | (k', v) :: l' => if decide (k' = k) then Some v else assoc k l'
  end.

(** [T[C]] as a list of values. *)
Definition column (T : DataFrame) (C : string) : option (list cell) :=
  assoc C (df_columns T).

Definition nrows (T : DataFrame) : Z := Z.of_nat (length (df_index T)).

(** [np.arange(a, b)] *)
Definition np_arange (a b : Z) : list Z :=
  (λ i : nat, a + Z.of_nat i) <$> seq 0 (Z.to_nat (b - a)).

(** [RangeIndex(n)] *)
Definition range_index (n : nat) : list cell := Int <$> np_arange 0 (Z.of_nat n).

(** ** pandas and NumPy operations *)

(** [unique]: the distinct entries in order of first appearance (the order
    in which the hash table meets them).  The missing marker is kept. *)
Definition unique (l : list cell) : list cell :=
  foldl (λ acc x, if decide (x ∈ acc) then acc else acc ++ [x]) [] l.

(** Number of entries equal to [k]. *)
Definition count (k : cell) (l : list cell) : Z :=
  Z.of_nat (length (filter (λ x, x = k) l)).

(** [dropna]: the entries that are not missing. *)
Definition dropna (l : list cell) : list cell := filter (λ x, x ≠ NA) l.

(** Stable insertion sort: [before y x] says that [y] has to come strictly
    before [x]; entries that are not ordered by it keep their places. *)
Fixpoint insert_by {A} (before : A → A → bool) (x : A) (l : list A) : list A :=
  match l with
  | [] => [x]
  | y :: l' => if before y x then y :: insert_by before x l' else x :: l
  end.

Definition stable_sort {A} (before : A → A → bool) (l : list A) : list A :=
  foldr (insert_by before) [] l.

(** [Series.sort_values(ascending=False)] on a series of integers.  Equal
    values keep their order (NumPy's default sort does so on short arrays
    and makes no promise on long ones). *)
Definition sort_values_desc (s : Series Z) : Series Z :=
  stable_sort (λ y x, x.2 <? y.2) s.

(** [Series.value_counts()]: missing entries are dropped ([dropna=True]),
    the index holds the distinct values, the values their counts, largest
    first ([sort=True]). *)
Definition value_counts (l : list cell) : Series Z :=
  let present := dropna l in
  sort_values_desc ((λ k, (k, count k present)) <$> unique present).

(** [s / n] for an integer series and an integer: true division in
    binary64. *)
Definition series_truediv (s : Series Z) (n : Z) : Series float :=
  (λ p, (p.1, Float64.div (Float64.of_int p.2) (Float64.of_int n))) <$> s.

(** [s * k] for a float series and an integer. *)
Definition series_mul (s : Series float) (k : Z) : Series float :=
  (λ p, (p.1, Float64.mul p.2 (Float64.of_int k))) <$> s.

(** [np.round(x, decimals)] on a float, for [decimals >= 0]: multiply by
    the power of ten, [rint], divide by it. *)
Definition round_half_even (x : float) (decimals : Z) : float :=
  let f := Float64.of_int (10 ^ decimals) in
  Float64.div (Float64.rint (Float64.mul x f)) f.

Definition np_round (s : Series float) (decimals : Z) : Series float :=
  (λ p, (p.1, round_half_even p.2 decimals)) <$> s.

(** [Series.sum()] of an integer series. *)
Definition series_sum (s : Series Z) : Z := foldr Z.add 0 (s_values s).

(** The order pandas sorts labels by.  Values of one kind are compared
    as Python compares them; the missing marker goes last.  (Sorting a
    column that mixes strings with numbers is refused by pandas; the order
    below places numbers first.) *)
Definition cell_leb (a b : cell) : bool :=
  match a, b with
  | _, NA => true
  | NA, _ => false
  | Str s, Str t => String.leb s t
  | Str _, _ => false
  | _, Str _ => true
  | Int x, Int y => x <=? y
  | Int x, Flt y => Qle_bool (inject_Z x) y
  | Flt x, Int y => Qle_bool x (inject_Z y)
  | Flt x, Flt y => Qle_bool x y
  end.

(** Strict ascending order on pairs of group keys. *)
Definition key_ltb (a b : cell * cell) : bool :=
  if cell_leb b.1 a.1
  then (if cell_leb a.1 b.1 then negb (cell_leb b.2 a.2) else false)
  else true.

(** [df.groupby([c1, c2]).size()] on the two key columns: rows with a
    missing key are dropped, the groups come in ascending key order. *)
Definition groupby_size (k1 k2 : list cell) : list ((cell * cell) * Z) :=
  let keys := filter (λ k : cell * cell, k.1 ≠ NA ∧ k.2 ≠ NA) (zip k1 k2) in
  let distinct :=
    foldl (λ acc k, if decide (k ∈ acc) then acc else acc ++ [k]) [] keys in
  stable_sort (λ y x, key_ltb y.1 x.1)
    ((λ k, (k, Z.of_nat (length (filter (λ x, x = k) keys)))) <$> distinct).

(** Descending order on the rows of a table by the cell of one column,
    missing cells last. *)
Definition row_before (y x : nat * cell) : bool :=
  if isna y.2 then false else if isna x.2 then true else negb (cell_leb y.2 x.2).

(** The rows of [T] at the positions [order], in that order. *)
Definition take_rows (T : DataFrame) (order : list nat) : DataFrame :=
  mkDataFrame ((λ i, default NA (df_index T !! i)) <$> order)
    ((λ c : string * list cell, (c.1, (λ i, default NA (c.2 !! i)) <$> order)) <$> df_columns T).

(** ** The store, the canvas and the monad of the helpers *)

Abbreviation loc := positive.

(** What an annotation shows: a bar's count, or its percentage (which
    Matplotlib prints with two decimals). *)
Inductive label : Type :=
  | CountLabel (height : Z)
  | PercentLabel (percentage : float).

(** The plotting calls the helpers make, with the data they pass.  The
    geometry Matplotlib derives from them is not part of the helpers: a bar
    is named by its position. *)
Inductive plt_call : Type :=
  | plt_figure (figsize : Z * Z)
  | plt_bar (x : list cell) (height : list Z) (color_map : string) (colors : nat)
  | plt_text (bar : nat) (y : float) (s : label)
  | plt_pie (x : list Z) (labels : list cell) (explode : list float)
  | plt_title (s : string)
  | plt_xlabel (s : string)
  | plt_ylabel (s : string)
  | plt_xticks (rotation : Z)
  | plt_grid (axis which : option string)
  | plt_tight_layout
  | plt_legend (title : string)
  | plt_show
  | sns_barplot (x y hue : string) (data : DataFrame)
  | sns_lineplot (x y : string) (data : DataFrame).

Record state : Type := mkState {
  heap : gmap loc DataFrame;
  canvas : list plt_call
}.

Inductive exn : Type :=
  | KeyError (key : string)
  | NameError (l : loc).

Inductive outcome (A : Type) : Type :=
  | Returns (a : A) (σ : state)
  | Raises (e : exn) (σ : state).
Arguments Returns {A} a σ.
Arguments Raises {A} e σ.

Definition py (A : Type) : Type := state → outcome A.

#[global] Instance py_ret : MRet py := λ A a σ, Returns a σ.

#[global] Instance py_bind : MBind py := λ A B f m σ,
  match m σ with
  | Returns a σ' => f a σ'
  | Raises e σ' => Raises e σ'
  end.

Definition raise {A} (e : exn) : py A := λ σ, Raises e σ.

(** Dereference a table. *)
Definition deref (l : loc) : py DataFrame := λ σ,
  match heap σ !! l with
  | Some T => Returns T σ
  | None => Raises (NameError l) σ
  end.

(** [df[column]]: a missing column is a [KeyError]. *)
Definition getitem (df : loc) (column_name : string) : py (Series cell) :=
  T ← deref df;
  match column T column_name with
  | Some vs => mret (zip (df_index T) vs)
  | None => raise (KeyError column_name)
  end.

(** [len(df)] *)
Definition len (df : loc) : py Z := T ← deref df; mret (nrows T).

(** A new table object. *)
Definition alloc (T : DataFrame) : py loc := λ σ,
  let l := fresh (dom (heap σ)) in
  Returns l (mkState (<[l := T]> (heap σ)) (canvas σ)).

(** [pd.DataFrame({...})] for a dictionary that holds a series: the row
    labels are the index of the series. *)
Definition pd_DataFrame_dict (index : list cell) (data : list (string * list cell)) : py loc :=
  alloc (mkDataFrame index data).

(** [pd.DataFrame(values, columns=[name])] for a list of scalars: one
    column, rows labelled 0, 1, ... *)
Definition pd_DataFrame_list (values : list cell) (name : string) : py loc :=
  alloc (mkDataFrame (range_index (length values)) [(name, values)]).

(** [table.index = labels]: assignment into the object. *)
Definition set_index (table : loc) (labels : list cell) : py unit := λ σ,
  match heap σ !! table with
  | Some T => Returns () (mkState (<[table := mkDataFrame labels (df_columns T)]> (heap σ)) (canvas σ))
  | None => Raises (NameError table) σ
  end.

(** [table.columns = names]: assignment into the object. *)
Definition set_columns (table : loc) (names : list string) : py unit := λ σ,
  match heap σ !! table with
  | Some T =>
      Returns () (mkState (<[table := mkDataFrame (df_index T) (zip names (df_columns T).*2)]> (heap σ))
                          (canvas σ))
  | None => Raises (NameError table) σ
  end.

(** A plotting call. *)
Definition plt (c : plt_call) : py unit := λ σ,
  Returns () (mkState (heap σ) (canvas σ ++ [c])).

(** [for x in xs: body] *)
Fixpoint for_each {A} (xs : list A) (body : A → py unit) : py unit :=
  match xs with
  | [] => mret ()
  | x :: xs' => body x ;; for_each xs' body
  end.

(** ** The helpers *)

Definition figsize_t : Type := Z * Z.

(** [def plot_class_distribution(df, column, title, xlabel, ylabel,
        figsize=(12, 7), color_map='jet', rotation=45)] *)
Definition plot_class_distribution (df : loc) (column title xlabel ylabel : string)
    (figsize : option figsize_t) (color_map : option string) (rotation : option Z) : py unit :=
  let figsize := default (12, 7) figsize in
  let color_map := default "jet" color_map in
  let rotation := default 45 rotation in
  s ← getitem df column;
  let class_distribution := value_counts (s_values s) in
  let total_observations := series_sum class_distribution in
  let percentages :=
    (λ c, Float64.mul (Float64.div (Float64.of_int c) (Float64.of_int total_observations))
                      (Float64.of_int 100)) <$> s_values class_distribution in
  plt (plt_figure figsize) ;;
  plt (plt_bar (s_index class_distribution) (s_values class_distribution)
               color_map (length class_distribution)) ;;
  for_each (imap (λ i hp, (i, hp)) (zip (s_values class_distribution) percentages))
    (λ '(bar, (height, percentage)),
       plt (plt_text bar
              (Float64.add (Float64.of_int height)
                 (Float64.mul (Float64.literal 0.03) (Float64.of_int total_observations)))
              (CountLabel height)) ;;
       plt (plt_text bar (Float64.div (Float64.of_int height) (Float64.of_int 2))
              (PercentLabel percentage))) ;;
  plt (plt_title title) ;;
  plt (plt_xlabel xlabel) ;;
  plt (plt_ylabel ylabel) ;;
  plt (plt_xticks rotation) ;;
  plt (plt_grid (Some "y") None) ;;
  plt plt_tight_layout ;;
  plt plt_show.

(** [def plot_pie_chart_distribution(df, column, title, figsize=(10, 8),
        explode_threshold=0.05)] *)
Definition plot_pie_chart_distribution (df : loc) (column title : string)
    (figsize : option figsize_t) (explode_threshold : option float) : py unit :=
  let figsize := default (10, 8) figsize in
  let explode_threshold := default (Float64.literal 0.05) explode_threshold in
  s ← getitem df column;
  let class_distribution := value_counts (s_values s) in
  let total := series_sum class_distribution in
  let explode_values :=
    (λ count : Z,
       if Float64.ltb (Float64.of_int count) (Float64.mul (Float64.of_int total) explode_threshold)
       then Float64.literal 0.1 else Float64.of_int 0) <$> s_values class_distribution in
  plt (plt_figure figsize) ;;
  plt (plt_pie (s_values class_distribution) (s_index class_distribution) explode_values) ;;
  plt (plt_title title) ;;
  plt plt_show.

(** [DataFrame.sort_values(by=..., ascending=False)]: a new table. *)
Definition sort_frame_desc (table : loc) (by_ : string) : py loc :=
  T ← deref table;
  match column T by_ with
  | Some keys => alloc (take_rows T (stable_sort row_before (imap pair keys)).*1)
  | None => raise (KeyError by_)
  end.

(** [def plot_grouped_bar(df, category, sub_category, count, title, xlabel,
        ylabel, figsize=(15, 7), rotation=45)] *)
Definition plot_grouped_bar (df : loc) (category sub_category count title xlabel ylabel : string)
    (figsize : option figsize_t) (rotation : option Z) : py unit :=
  let figsize := default (15, 7) figsize in
  let rotation := default 45 rotation in
  k1 ← getitem df category;
  k2 ← getitem df sub_category;
  let sizes := groupby_size (s_values k1) (s_values k2) in
  grouped_data ← alloc (mkDataFrame (range_index (length sizes))
                          [(category, sizes.*1.*1); (sub_category, sizes.*1.*2);
                           (count, Int <$> sizes.*2)]);
  grouped_data ← sort_frame_desc grouped_data count;
  plt (plt_figure figsize) ;;
  data ← deref grouped_data;
  plt (sns_barplot category count sub_category data) ;;
  plt (plt_title title) ;;
  plt (plt_xlabel xlabel) ;;
  plt (plt_ylabel ylabel) ;;
  plt (plt_xticks rotation) ;;
  plt plt_tight_layout ;;
  plt (plt_legend sub_category) ;;
  plt plt_show.

(** [def create_class_distribution_table(df, column_name)] *)
Definition create_class_distribution_table (df : loc) (column_name : string) : py loc :=
  s ← getitem df column_name;
  let class_distribution := sort_values_desc (value_counts (s_values s)) in
  n ← len df;
  let percentages := np_round (series_mul (series_truediv class_distribution n) 100) 3 in
  table ← pd_DataFrame_dict (s_index percentages)
            [("Attacco", s_index class_distribution);
             ("Numero di Esempi", Int <$> s_values class_distribution);
             ("Percentuale", Flt <$> s_values percentages)];
  m ← len table;
  set_index table (Int <$> np_arange 1 (m + 1)) ;;
  mret table.

(** [def find_unique_values(df1, df2, column_name,
        df1_name='First Dataset', df2_name='Second Dataset')].
    The Python sets are finite sets of cells.  The missing marker, which
    [unique] keeps (once), is one value among the others, as it is in a
    column of objects whose missing entries are the one object [nan]; the
    NaN of a float column is read from the array as an object of its own
    each time, which a Python set tells apart from every other, and that is
    not modelled.  [list(s)] lists a set in an order of its own: here, that
    of [elements]. *)
Definition find_unique_values (df1 df2 : loc) (column_name : string)
    (df1_name df2_name : option string) : py (loc * loc) :=
  let df1_name := default "First Dataset" df1_name in
  let df2_name := default "Second Dataset" df2_name in
  s1 ← getitem df1 column_name;
  let unique_values_df1 : gset cell := list_to_set (unique (s_values s1)) in
  s2 ← getitem df2 column_name;
  let unique_values_df2 : gset cell := list_to_set (unique (s_values s2)) in
  let values_only_in_df1 := unique_values_df1 ∖ unique_values_df2 in
  let values_only_in_df2 := unique_values_df2 ∖ unique_values_df1 in
  df1_exclusive_values ←
    pd_DataFrame_list (elements values_only_in_df1) ("Valori unici in " +:+ df1_name);
  df2_exclusive_values ←
    pd_DataFrame_list (elements values_only_in_df2) ("Valori unici in " +:+ df2_name);
  mret (df1_exclusive_values, df2_exclusive_values).

(** Python's truth value of an optional string: [None] and the empty
    string are false. *)
Definition truthy (s : option string) : bool :=
  match s with
  | Some s => negb (bool_decide (s = EmptyString))
  | None => false
  end.

(** [def plot_line_distribution(df, column, figsize=(15,7), rotation=90,
        grid=True, title=None, xlabel=None, ylabel='Numero di Osservazioni')] *)
Definition plot_line_distribution (df : loc) (column : string)
    (figsize : option figsize_t) (rotation : option Z) (grid : option bool)
    (title xlabel : option string) (ylabel : option string) : py unit :=
  let figsize := default (15, 7) figsize in
  let rotation := default 90 rotation in
  let grid := default true grid in
  let ylabel := default "Numero di Osservazioni" ylabel in
  s ← getitem df column;
  let counts := value_counts (s_values s) in
  (* [reset_index()]: the labels and the counts become two columns (which
     the next line renames), the rows are labelled 0, 1, ... *)
  distribution ← alloc (mkDataFrame (range_index (length counts))
                          [(column, s_index counts); ("count", Int <$> s_values counts)]);
  set_columns distribution [column; "Count"] ;;
  plt (plt_figure figsize) ;;
  data ← deref distribution;
  plt (sns_lineplot column "Count" data) ;;
  plt (plt_xticks rotation) ;;
  (if truthy title then plt (plt_title (default EmptyString title)) else mret ()) ;;
  (if truthy xlabel then plt (plt_xlabel (default EmptyString xlabel)) else mret ()) ;;
  plt (plt_ylabel ylabel) ;;
  (if grid then plt (plt_grid None (Some "both")) else mret ()) ;;
  plt plt_tight_layout ;;
  plt plt_show.

(** ** Notions used to state the properties *)

(** The state a call leaves behind, whether it returns or raises. *)
Definition final {A} (o : outcome A) : state :=
  match o with
  | Returns _ σ => σ
  | Raises _ σ => σ
  end.

(** The shape of a summary table: the three columns, rows labelled from 1. *)
Definition summary_frame (labels : list cell) (counts : list Z) (pcts : list float) : DataFrame :=
  mkDataFrame (Int <$> np_arange 1 (Z.of_nat (length labels) + 1))
    [("Attacco", labels); ("Numero di Esempi", Int <$> counts); ("Percentuale", Flt <$> pcts)].

(** One entry of 'Percentuale': [np.round(c / n * 100, 3)]. *)
Definition share_percent (c n : Z) : float :=
  round_half_even
    (Float64.mul (Float64.div (Float64.of_int c) (Float64.of_int n)) (Float64.of_int 100)) 3.

Definition Zsum (l : list Z) : Z := foldr Z.add 0 l.
Definition Qsum (l : list Q) : Q := foldr Qplus 0%Q l.

(** The set of values of a column. *)
Definition value_set (vs : list cell) : gset cell := list_to_set vs.

(** What [np.round(c / n * 100, 3)] can differ by from the exact share
    [100 c / n]: half a unit of the third decimal, and the error of the
    floating-point operations. *)
Definition tolerance : Q := (1 # 2000) + (1 # 1000000000000).

(** The unit roundoff of binary64, 2^-53. *)
Definition unit_roundoff : Q := 1 # 9007199254740992.

(** [keeps l T m Q]: from a store that holds [T] at [l], the computation
    [m] ends, by a return or by an exception, in a store that holds [T] at
    [l]; a returned value satisfies [Q]. *)
Definition keeps {A} (l : loc) (T : DataFrame) (m : py A) (Q : A → Prop) : Prop :=
  ∀ σ, heap σ !! l = Some T →
    match m σ with
    | Returns a σ' => Q a ∧ heap σ' !! l = Some T
    | Raises _ σ' => heap σ' !! l = Some T
    end.

(** [unchanged proj m]: the part [proj] of the state (the store, or the
    canvas) is the same after [m] as before, whether [m] returns or raises. *)
Definition unchanged {A B} (proj : state → B) (m : py A) : Prop :=
  ∀ σ, proj (final (m σ)) = proj σ.

(** ** Reading the canvas *)




(** The pies drawn: slice sizes, labels and explode values. *)
Definition pies (cs : list plt_call) : list (list Z * list cell * list float) :=
  omap (λ c, match c with plt_pie x labels explode => Some (x, labels, explode) | _ => None end) cs.



(** ** Sample tables *)

(** A store that holds one table, at address 1, and an empty canvas. *)
Definition store (T : DataFrame) : state := mkState {[ 1%positive := T ]} [].

(** A store that holds two tables, at addresses 1 and 2. *)
Definition store2 (T1 T2 : DataFrame) : state :=
  mkState (<[ 2%positive := T2 ]> {[ 1%positive := T1 ]}) [].

Definition attacks : DataFrame :=
  mkDataFrame (range_index 4)
    [("attack_type", [Str "dos"; Str "dos"; Str "probe"; Str "dos"])].

(** Three rows with one and the same value. *)
Definition one_class : DataFrame :=
  mkDataFrame (range_index 3) [("attack_type", [Str "dos"; Str "dos"; Str "dos"])].

(** Two rows, the second without a value. *)
Definition with_gap : DataFrame :=
  mkDataFrame (range_index 2) [("label", [Str "a"; NA])].


(** A column, and no row. *)
Definition no_rows : DataFrame := mkDataFrame [] [("label", [])].

(** 522 rows: the identifiers "0", ..., "520", each once, and one row
    without a value. *)
Definition many_ids : DataFrame :=
  mkDataFrame (range_index 522) [("id", ((λ i : nat, Str (pretty i)) <$> seq 0 521) ++ [NA])].

Definition left_table : DataFrame :=
  mkDataFrame (range_index 3) [("x", [Str "a"; Str "b"; Str "c"])].



(** ** The kernel's binary64, to compare the model with *)

Module Kernel64.

(** The rational a finite kernel float stands for. *)
Definition to_Q (x : PrimFloat.float) : Q :=
  match Prim2SF x with
  | SpecFloat.S754_finite s m e =>
      Qred ((if s then -1 else 1) * inject_Z (Zpos m) * Float64.pow2 e)
  | _ => 0%Q
  end.

Definition of_Z (z : Z) : PrimFloat.float := PrimFloat.of_uint63 (Uint63.of_Z z).

(** [np.round(c / n * 100, 3)], operation by operation: the kernel's result
    of each is the model's. *)
Definition agree (c n : Z) : bool :=
  let pc := of_Z c in
  let pn := of_Z n in
  let d := PrimFloat.div pc pn in
  let h := PrimFloat.mul d (of_Z 100) in
  let t := PrimFloat.mul h (of_Z 1000) in
  let k := Float64.rne (to_Q t) in
  let p := PrimFloat.div (of_Z k) (of_Z 1000) in
  bool_decide (to_Q pc = Float64.of_int c) &&
  bool_decide (to_Q pn = Float64.of_int n) &&
  bool_decide (to_Q d = Float64.div (to_Q pc) (to_Q pn)) &&
  bool_decide (to_Q h = Float64.mul (to_Q d) (Float64.of_int 100)) &&
  bool_decide (to_Q t = Float64.mul (to_Q h) (Float64.of_int 1000)) &&
  bool_decide (to_Q p = Float64.div (Float64.rint (to_Q t)) (Float64.of_int 1000)) &&
  bool_decide (to_Q p = share_percent c n).

(** All counts [1 <= c <= n] for the row counts [1 <= n <= N]. *)
Definition agree_upto (N : nat) : bool :=
  forallb (λ n, forallb (λ c, agree (Z.of_nat c) (Z.of_nat n)) (seq 1 n)) (seq 1 N).

End Kernel64.

(** [approx ε x y]: [x] is [y] up to the relative error [ε]. *)
Definition approx (ε x y : Q) : Prop := (y * (1 - ε) <= x ∧ x <= y * (1 + ε))%Q.

(** * Properties *)

(** ** The binary64 model *)

Module Float64Facts.
Import Float64.
Local Open Scope Q_scope.

Lemma pow2_pos e : 0 < pow2 e.
Proof. apply Qpower_0_lt. reflexivity. Qed.

Lemma pow2_add a b : pow2 (a + b) == pow2 a * pow2 b.
Proof. apply Qpower_plus. discriminate. Qed.

Lemma pow2_le a b : (a <= b)%Z → pow2 a <= pow2 b.
Proof. intros. apply Qpower_le_compat_l; [done|]. unfold Qle; simpl; lia. Qed.


Lemma pow2_Z e : (0 <= e)%Z → pow2 e == inject_Z (2 ^ e).
Proof. intros. unfold pow2. rewrite Zpower_Qpower by done. reflexivity. Qed.

Lemma pow2_inv a : pow2 a * pow2 (- a) == 1.
Proof. rewrite <- pow2_add. replace (a + - a)%Z with 0%Z by lia. reflexivity. Qed.

Lemma ilog2_spec q : 0 < q → pow2 (ilog2 q) <= q ∧ q < pow2 (ilog2 q + 1).
Proof.
  intros Hq. destruct q as [a b]. unfold ilog2. cbn [Qnum Qden].
  assert (Ha : (0 < a)%Z) by (unfold Qlt in Hq; simpl in Hq; lia).
  set (la := Z.log2 a). set (lb := Z.log2 (Z.pos b)).
  destruct (Z.log2_spec a Ha) as [Ha1 Ha2]. fold la in Ha1, Ha2.
  destruct (Z.log2_spec (Z.pos b) ltac:(lia)) as [Hb1 Hb2]. fold lb in Hb1, Hb2.
  assert (Hla : (0 <= la)%Z) by apply Z.log2_nonneg.
  assert (Hlb : (0 <= lb)%Z) by apply Z.log2_nonneg.
  assert (Hq' : a # b == inject_Z a / inject_Z (Z.pos b)) by apply Qmake_Qdiv.
  assert (Hbpos : 0 < inject_Z (Z.pos b)) by (unfold Qlt; simpl; lia).
  (* q < pow2 (d + 1) and pow2 (d - 1) <= q *)
  assert (Hup : a # b < pow2 (la - lb + 1)).
  { rewrite Hq'. apply Qlt_shift_div_r; [done|].
    apply Qlt_le_trans with (pow2 (la - lb + 1) * pow2 lb).
    - rewrite <- pow2_add. replace (la - lb + 1 + lb)%Z with (la + 1)%Z by lia.
      rewrite pow2_Z by lia. rewrite <- Zlt_Qlt. replace (la + 1)%Z with (Z.succ la) by lia. done.
    - apply Qmult_le_l; [apply pow2_pos|]. rewrite pow2_Z by lia. rewrite <- Zle_Qle. done. }
  assert (Hlo : pow2 (la - lb - 1) <= a # b).
  { rewrite Hq'. apply Qle_shift_div_l; [done|].
    apply Qle_trans with (pow2 (la - lb - 1) * pow2 (lb + 1)).
    - apply Qmult_le_l; [apply pow2_pos|]. rewrite pow2_Z by lia. rewrite <- Zle_Qle.
      replace (lb + 1)%Z with (Z.succ lb) by lia. lia.
    - rewrite <- pow2_add. replace (la - lb - 1 + (lb + 1))%Z with la by lia.
      rewrite pow2_Z by lia. rewrite <- Zle_Qle. done. }
  destruct (Qle_bool (pow2 (la - lb)) (a # b)) eqn:E.
  - apply Qle_bool_iff in E. split; done.
  - split; [done|]. replace (la - lb - 1 + 1)%Z with (la - lb)%Z by lia.
    apply Qnot_le_lt. intros H. apply Qle_bool_iff in H. congruence.
Qed.

Lemma ilog2_unique q e : 0 < q → pow2 e <= q → q < pow2 (e + 1) → ilog2 q = e.
Proof.
  intros Hq H1 H2. destruct (ilog2_spec q Hq) as [H3 H4].
  destruct (Z.lt_trichotomy (ilog2 q) e) as [Hlt|[Heq|Hgt]]; [|done|].
  - exfalso. assert (pow2 (ilog2 q + 1) <= pow2 e) by (apply pow2_le; lia). lra.
  - exfalso. assert (pow2 (e + 1) <= pow2 (ilog2 q)) by (apply pow2_le; lia). lra.
Qed.

Lemma ilog2_comp q q' : 0 < q → q == q' → ilog2 q = ilog2 q'.
Proof.
  intros Hq Heq. symmetry. destruct (ilog2_spec q Hq).
  apply ilog2_unique; rewrite <- ?Heq; done.
Qed.

Lemma rne_comp q q' : q == q' → rne q = rne q'.
Proof.
  intros Heq. unfold rne. rewrite (Qfloor_comp _ _ Heq).
  assert (H : q - inject_Z (Qfloor q') == q' - inject_Z (Qfloor q')) by (rewrite Heq; reflexivity).
  rewrite (Qcompare_comp _ _ H _ _ (Qeq_refl (1#2))). done.
Qed.

Lemma rne_spec q : Qabs (inject_Z (rne q) - q) <= 1 # 2.
Proof.
  unfold rne. pose proof (Qfloor_le q) as H1. pose proof (Qlt_floor q) as H2.
  rewrite inject_Z_plus in H2. change (inject_Z 1) with 1 in H2.
  apply Qabs_Qle_condition.
  destruct (Qcompare_spec (q - inject_Z (Qfloor q)) (1 # 2)) as [E|E|E].
  - destruct (Z.even (Qfloor q)); rewrite ?inject_Z_plus; change (inject_Z 1) with 1; lra.
  - lra.
  - rewrite inject_Z_plus; change (inject_Z 1) with 1; lra.
Qed.


Lemma rne_ge q z : inject_Z z <= q → (z <= rne q)%Z.
Proof.
  intros H. pose proof (rne_spec q) as Hs. apply Qabs_Qle_condition in Hs.
  assert (inject_Z z - 1 < inject_Z (rne q)) by lra.
  assert (inject_Z (z - 1) < inject_Z (rne q)).
  { replace (z - 1)%Z with (z + -1)%Z by lia. rewrite inject_Z_plus.
    change (inject_Z (-1)) with (- (1)). lra. }
  rewrite <- Zlt_Qlt in *. lia.
Qed.

Lemma rne_le q z : q <= inject_Z z → (rne q <= z)%Z.
Proof.
  intros H. pose proof (rne_spec q) as Hs. apply Qabs_Qle_condition in Hs.
  assert (inject_Z (rne q) < inject_Z (z + 1)).
  { rewrite inject_Z_plus. change (inject_Z 1) with 1. lra. }
  rewrite <- Zlt_Qlt in *. lia.
Qed.

Lemma Qnum_pos q : 0 < q → ∃ p, Qnum q = Zpos p.
Proof.
  destruct q as [[|p|p] d]; unfold Qlt; simpl; intros H; try lia. eauto.
Qed.

Lemma Qnum_neg q : q < 0 → ∃ p, Qnum q = Zneg p.
Proof.
  destruct q as [[|p|p] d]; unfold Qlt; simpl; intros H; try lia. eauto.
Qed.

Lemma Qnum_zero q : q == 0 → Qnum q = 0%Z.
Proof. destruct q as [n d]. unfold Qeq; simpl. lia. Qed.

Lemma round_pos_eq q :
  0 < q →
  round q == inject_Z (rne (q * pow2 (prec - 1 - ilog2 q))) * pow2 (ilog2 q - (prec - 1)).
Proof.
  intros Hq. unfold round. destruct (Qnum_pos q Hq) as [p ->]. apply Qred_correct.
Qed.

Lemma round_comp q q' : q == q' → round q = round q'.
Proof.
  intros Heq. destruct (Q_dec q 0) as [[Hneg|Hpos]|Hz].
  - assert (Hneg' : q' < 0) by (rewrite <- Heq; done).
    unfold round. destruct (Qnum_neg q Hneg) as [p ->]. destruct (Qnum_neg q' Hneg') as [p' ->].
    assert (Hq : 0 < - q) by lra.
    assert (Heq' : - q == - q') by (rewrite Heq; reflexivity).
    rewrite (ilog2_comp _ _ Hq Heq'). apply Qred_complete.
    rewrite (rne_comp (- q * _) (- q' * pow2 (prec - 1 - ilog2 (- q')))); [reflexivity|].
    rewrite Heq. reflexivity.
  - assert (Hpos' : 0 < q') by (rewrite <- Heq; done).
    unfold round. destruct (Qnum_pos q Hpos) as [p ->]. destruct (Qnum_pos q' Hpos') as [p' ->].
    rewrite (ilog2_comp _ _ Hpos Heq). apply Qred_complete.
    rewrite (rne_comp (q * _) (q' * pow2 (prec - 1 - ilog2 q'))); [reflexivity|].
    rewrite Heq. reflexivity.
  - assert (Hz' : q' == 0) by (rewrite <- Heq; done).
    unfold round. rewrite (Qnum_zero q Hz), (Qnum_zero q' Hz'). done.
Qed.

Local Abbreviation u := unit_roundoff.

Lemma round_scaled q :
  0 < q →
  pow2 (prec - 1) <= q * pow2 (prec - 1 - ilog2 q).
Proof.
  intros Hq. destruct (ilog2_spec q Hq) as [H1 _].
  apply Qle_trans with (pow2 (ilog2 q) * pow2 (prec - 1 - ilog2 q)).
  - rewrite <- pow2_add. apply pow2_le. lia.
  - apply Qmult_le_compat_r; [done|]. apply Qlt_le_weak, pow2_pos.
Qed.

Lemma round_pos q : 0 < q → 0 < round q.
Proof.
  intros Hq. rewrite (round_pos_eq q Hq).
  apply Qmult_lt_0_compat; [|apply pow2_pos].
  pose proof (round_scaled q Hq) as H. rewrite pow2_Z in H by (unfold prec; lia).
  apply rne_ge in H. change 0 with (inject_Z 0). rewrite <- Zlt_Qlt.
  assert (0 < 2 ^ (prec - 1))%Z by (apply Z.pow_pos_nonneg; unfold prec; lia). lia.
Qed.

Lemma round_err q : 0 < q → Qabs (round q - q) <= q * u.
Proof.
  intros Hq. rewrite (round_pos_eq q Hq).
  set (e := ilog2 q). set (s := pow2 (prec - 1 - e)). set (m := inject_Z (rne (q * s))).
  pose proof (rne_spec (q * s)) as Hm. fold m in Hm.
  assert (Hs : s * pow2 (e - (prec - 1)) == 1).
  { unfold s. rewrite <- pow2_add. replace (prec - 1 - e + (e - (prec - 1)))%Z with 0%Z by lia.
    reflexivity. }
  assert (Hd : m * pow2 (e - (prec - 1)) - q == (m - q * s) * pow2 (e - (prec - 1))).
  { transitivity (m * pow2 (e - (prec - 1)) - q * (s * pow2 (e - (prec - 1)))); [|ring].
    rewrite Hs. ring. }
  rewrite Hd, Qabs_Qmult. rewrite (Qabs_pos (pow2 _)) by apply Qlt_le_weak, pow2_pos.
  apply Qle_trans with ((1 # 2) * pow2 (e - (prec - 1))).
  { apply Qmult_le_compat_r; [done|]. apply Qlt_le_weak, pow2_pos. }
  destruct (ilog2_spec q Hq) as [H1 _]. fold e in H1.
  apply Qle_trans with (pow2 e * u); [|apply Qmult_le_compat_r; [done|unfold unit_roundoff, Qle; simpl; lia]].
  assert (He : pow2 (e - (prec - 1)) == pow2 e * pow2 (- (prec - 1))).
  { rewrite <- pow2_add. apply Qpower_comp; [reflexivity|lia]. }
  rewrite He. assert (Hu : (1 # 2) * pow2 (- (prec - 1)) == u) by reflexivity.
  rewrite <- Hu. apply Qle_lteq. right. ring.
Qed.

Lemma round_bounds q : 0 <= q → q * (1 - u) <= round q ∧ round q <= q * (1 + u).
Proof.
  intros Hq. destruct (Qle_lt_or_eq _ _ Hq) as [Hpos|Hz].
  - pose proof (round_err q Hpos) as H. apply Qabs_Qle_condition in H. lra.
  - rewrite (round_comp q 0) by (symmetry; done). change (round 0) with 0. 
    rewrite <- Hz. lra.
Qed.

Lemma round_nonneg q : 0 <= q → 0 <= round q.
Proof.
  intros Hq. destruct (Qle_lt_or_eq _ _ Hq) as [Hpos|Hz].
  - apply Qlt_le_weak, round_pos. done.
  - rewrite (round_comp q 0) by (symmetry; done). done.
Qed.

Lemma div_self x : ¬ x == 0 → div x x = 1.
Proof.
  intros Hx. unfold div. rewrite (round_comp (x / x) 1); [reflexivity|].
  field. done.
Qed.

Lemma closed_le (a b : Q) : Qle_bool a b = true → a <= b.
Proof. apply Qle_bool_imp_le. Qed.

Lemma u_pos : 0 < u.
Proof. reflexivity. Qed.

Lemma u_lt_1 : u < 1.
Proof. reflexivity. Qed.

Lemma approx_weaken ε ε' x y : 0 <= y → ε <= ε' → approx ε x y → approx ε' x y.
Proof. unfold approx. intros Hy He [H1 H2]. split; nra. Qed.

Lemma approx_round ε x y :
  0 <= y → 0 <= ε → ε <= 1 → approx ε x y → approx (ε + u + ε * u) (round x) y.
Proof.
  unfold approx. intros Hy He1 He2 [H1 H2].
  assert (Hx : 0 <= x) by nra.
  destruct (round_bounds x Hx) as [H3 H4].
  pose proof u_pos. pose proof u_lt_1. split; nra.
Qed.

Lemma approx_mul ε x y k : 0 <= k → approx ε x y → approx ε (x * k) (y * k).
Proof. unfold approx. intros Hk [H1 H2]. split; nra. Qed.

Lemma Qmult_le_l' (x y z : Q) : 0 <= z → x <= y → z * x <= z * y.
Proof. intros. rewrite !(Qmult_comm z). apply Qmult_le_compat_r; done. Qed.

Lemma approx_div ε1 ε2 x1 y1 x2 y2 :
  0 <= y1 → 0 < y2 → 0 <= ε1 → 0 <= ε2 → ε1 <= 1 → ε2 < 1 →
  approx ε1 x1 y1 → approx ε2 x2 y2 →
  approx ((ε1 + ε2) / (1 - ε2)) (x1 / x2) (y1 / y2).
Proof.
  unfold approx. intros Hy1 Hy2 He1 He2 He1' He2' [H1 H2] [H3 H4].
  assert (Hx2 : 0 < x2) by nra.
  assert (Hd : 0 < 1 - ε2) by lra.
  set (δ := (ε1 + ε2) / (1 - ε2)).
  assert (Hδ : δ * (1 - ε2) == ε1 + ε2) by (unfold δ; field; lra).
  assert (Hδ0 : 0 <= δ).
  { unfold δ. apply Qle_shift_div_l; [done|]. lra. }
  assert (Hq : y1 / y2 * y2 == y1) by (field; lra).
  assert (Hq0 : 0 <= y1 / y2).
  { apply Qle_shift_div_l; [done|]. lra. }
  set (A := y1 / y2) in *.
  split.
  - apply Qle_shift_div_l; [done|].
    (* A (1 - δ) x2 <= x1 *)
    destruct (Qlt_le_dec 1 δ) as [Hb|Hb].
    + apply Qle_trans with 0; [|nra].
      assert (A * (δ - 1) * x2 >= 0) by (apply Qmult_le_0_compat; [apply Qmult_le_0_compat|]; lra).
      lra.
    + apply Qle_trans with (A * (1 - δ) * (y2 * (1 + ε2))).
      * apply Qmult_le_l'; [|done]. apply Qmult_le_0_compat; lra.
      * apply Qle_trans with (y1 * (1 - ε1)); [|done].
        assert (E : A * (1 - δ) * (y2 * (1 + ε2)) == y1 * ((1 - δ) * (1 + ε2))).
        { rewrite <- Hq. ring. }
        rewrite E. apply Qmult_le_l'; [done|].
        assert ((1 - δ) * (1 + ε2) * (1 - ε2) <= (1 - ε1) * (1 - ε2)); [|nra].
        assert (E2 : (1 - δ) * (1 + ε2) * (1 - ε2) == (1 - ε2 - (ε1 + ε2)) * (1 + ε2)).
        { rewrite <- Hδ. ring. }
        rewrite E2. nra.
  - apply Qle_shift_div_r; [done|].
    apply Qle_trans with (y1 * (1 + ε1)); [done|].
    apply Qle_trans with (A * (1 + δ) * (y2 * (1 - ε2))).
    + assert (E : A * (1 + δ) * (y2 * (1 - ε2)) == y1 * (1 - ε2 + δ * (1 - ε2))).
      { rewrite <- Hq. ring. }
      rewrite E, Hδ. apply Qle_lteq. right. ring.
    + apply Qmult_le_l'; [|done]. apply Qmult_le_0_compat; lra.
Qed.

Lemma of_int_100 : of_int 100 = 100.
Proof. vm_compute. reflexivity. Qed.

Lemma of_int_1000 : of_int (10 ^ 3) = 1000.
Proof. vm_compute. reflexivity. Qed.

Lemma approx_of_int z : (0 <= z)%Z → approx u (of_int z) (inject_Z z).
Proof.
  intros Hz. unfold approx, of_int. apply round_bounds.
  change 0 with (inject_Z 0). rewrite <- Zle_Qle. done.
Qed.

Lemma percentage_accuracy c n :
  (1 <= c <= n)%Z →
  Qabs (share_percent c n - 100 * inject_Z c / inject_Z n) <= tolerance.
Proof.
  intros Hcn.
  assert (HC : 1 <= inject_Z c) by (change 1 with (inject_Z 1); rewrite <- Zle_Qle; lia).
  assert (HCN : inject_Z c <= inject_Z n) by (rewrite <- Zle_Qle; lia).
  unfold share_percent, round_half_even. rewrite of_int_1000, of_int_100.
  unfold rint, mul, div.
  set (C := inject_Z c) in *. set (N := inject_Z n) in *.
  assert (HA : 0 <= C / N) by (apply Qle_shift_div_l; lra).
  assert (HA1 : C / N <= 1) by (apply Qle_shift_div_r; lra).
  pose proof (approx_of_int c ltac:(lia)) as Hc. fold C in Hc.
  pose proof (approx_of_int n ltac:(lia)) as Hn. fold N in Hn.
  pose proof u_pos as Hu.
  assert (H1 : approx ((u + u) / (1 - u)) (of_int c / of_int n) (C / N)).
  { apply approx_div; try done; unfold unit_roundoff; lra. }
  apply (approx_weaken _ (3 * u)) in H1; [|done|apply closed_le; vm_compute; reflexivity].
  apply approx_round in H1; [|done|lra|unfold unit_roundoff; lra].
  apply (approx_weaken _ (5 * u)) in H1; [|done|apply closed_le; vm_compute; reflexivity].
  set (d := round (of_int c / of_int n)) in *.
  apply (approx_mul _ _ _ 100) in H1; [|lra].
  apply approx_round in H1; [|lra|lra|unfold unit_roundoff; lra].
  apply (approx_weaken _ (7 * u)) in H1; [|lra|apply closed_le; vm_compute; reflexivity].
  apply (approx_mul _ _ _ 1000) in H1; [|lra].
  apply approx_round in H1; [|lra|lra|unfold unit_roundoff; lra].
  apply (approx_weaken _ (9 * u)) in H1; [|lra|apply closed_le; vm_compute; reflexivity].
  set (t := round (round (d * 100) * 1000)) in *.
  pose proof (rne_spec t) as Hk. apply Qabs_Qle_condition in Hk.
  destruct H1 as [Ht1 Ht2].
  assert (Hk0 : (0 <= rne t)%Z).
  { apply rne_ge. change (inject_Z 0) with 0. unfold unit_roundoff in Ht1. nra. }
  set (k := inject_Z (rne t)) in *.
  assert (Hk0' : 0 <= k) by (change 0 with (inject_Z 0); unfold k; rewrite <- Zle_Qle; done).
  assert (Hq : 0 <= k / 1000) by (apply Qle_shift_div_l; lra).
  destruct (round_bounds (k / 1000) Hq) as [Hp1 Hp2].
  set (p := round (k / 1000)) in *.
  assert (Ek : k / 1000 * 1000 == k) by (field).
  set (q := k / 1000) in *.
  assert (Er : 100 * C / N == C / N * 100) by (field; lra).
  rewrite Er. set (A := C / N) in *.
  apply Qabs_Qle_condition. unfold tolerance. clearbody p q k t A.
  clear -Ht1 Ht2 Hk Hp1 Hp2 Ek HA HA1. unfold unit_roundoff in *. split; lra.
Qed.
End Float64Facts.

(** The model computes what the kernel's binary64 computes: on every table
    of up to 40 rows; on the shares 1/522, 1/1600 and 1/200000 (the last two
    are ties in exact arithmetic); and on counts beyond 2^53, which the
    conversion to binary64 rounds. *)
Lemma model_agrees_with_kernel :
  Kernel64.agree_upto 40 = true ∧
  Kernel64.agree 1 522 = true ∧ Kernel64.agree 1 1600 = true ∧ Kernel64.agree 1 200000 = true ∧
  Kernel64.agree (2 ^ 53 + 1) (2 ^ 60 + 129) = true ∧
  Kernel64.agree 12345678901 (2 ^ 40 + 1) = true.
Proof. split_and!; vm_compute; reflexivity. Qed.

(** ** Counting and sorting *)

Section counting.

Lemma unique_step_elem (acc l : list cell) (x : cell) :
  x ∈ foldl (λ acc x, if decide (x ∈ acc) then acc else acc ++ [x]) acc l ↔ x ∈ acc ∨ x ∈ l.
Proof.
  revert acc. induction l as [|y l IH]; intros acc; simpl.
  - set_solver.
  - rewrite IH. destruct (decide (y ∈ acc)); set_solver.
Qed.

Lemma unique_step_NoDup (acc l : list cell) :
  NoDup acc → NoDup (foldl (λ acc x, if decide (x ∈ acc) then acc else acc ++ [x]) acc l).
Proof.
  revert acc. induction l as [|y l IH]; intros acc Hacc; simpl; [done|].
  apply IH. destruct (decide (y ∈ acc)); [done|].
  apply NoDup_app. split_and!; [done| |apply NoDup_singleton].
  intros z Hz Hz'. apply list_elem_of_singleton in Hz'. congruence.
Qed.

Lemma elem_of_unique (l : list cell) x : x ∈ unique l ↔ x ∈ l.
Proof. unfold unique. rewrite unique_step_elem. set_solver. Qed.

Lemma NoDup_unique (l : list cell) : NoDup (unique l).
Proof. apply unique_step_NoDup, NoDup_nil_2. Qed.


Lemma count_cons k x l :
  count k (x :: l) = (if decide (x = k) then 1 else 0) + count k l.
Proof.
  unfold count. rewrite filter_cons. destruct (decide (x = k)); simpl; lia.
Qed.

Lemma count_nonneg k l : 0 <= count k l.
Proof. unfold count. lia. Qed.

Lemma count_le_length k l : count k l <= Z.of_nat (length l).
Proof. unfold count. pose proof (length_filter (λ x, x = k) l). lia. Qed.

Lemma count_pos k l : k ∈ l → 1 <= count k l.
Proof.
  intros Hk. unfold count.
  assert (H : k ∈ filter (λ x, x = k) l) by (apply list_elem_of_filter; done).
  destruct (filter (λ x, x = k) l); [by apply elem_of_nil in H|]. simpl. lia.
Qed.


Lemma Zsum_indicator (x : cell) (ks : list cell) :
  NoDup ks → x ∈ ks → Zsum ((λ k, if decide (x = k) then 1 else 0) <$> ks) = 1.
Proof.
  induction 1 as [|k ks Hk Hnd IH]; intros Hx; [by apply elem_of_nil in Hx|].
  cbn [fmap list_fmap Zsum foldr]. fold (Zsum ((λ k, if decide (x = k) then 1 else 0) <$> ks)).
  destruct (decide (x = k)) as [->|Hne].
  - assert (Zsum ((λ k0, if decide (k = k0) then 1 else 0) <$> ks) = 0); [|lia].
    clear IH Hnd Hx. induction ks as [|k' ks IH]; [done|].
    cbn [fmap list_fmap Zsum foldr]. fold (Zsum ((λ k0, if decide (k = k0) then 1 else 0) <$> ks)).
    rewrite IH by set_solver. destruct (decide (k = k')); [set_solver|done].
  - rewrite IH by set_solver. done.
Qed.

Lemma Zsum_add_pointwise {A} (f g : A → Z) (l : list A) :
  Zsum ((λ k, f k + g k) <$> l) = Zsum (f <$> l) + Zsum (g <$> l).
Proof. induction l as [|x l IH]; [done|]. cbn [fmap list_fmap Zsum foldr] in *. unfold Zsum in IH. lia. Qed.

(** Every entry is counted once: the counts of the distinct values add up
    to the number of entries. *)
Lemma Zsum_count (ks l : list cell) :
  NoDup ks → (∀ x, x ∈ l → x ∈ ks) → Zsum ((λ k, count k l) <$> ks) = Z.of_nat (length l).
Proof.
  intros Hnd. induction l as [|x l IH]; intros Hin.
  - clear Hnd Hin. induction ks as [|k ks IHk]; [done|].
    cbn [fmap list_fmap Zsum foldr]. unfold Zsum in IHk. rewrite IHk. done.
  - erewrite (list_fmap_ext _ (λ k, (if decide (x = k) then 1 else 0) + count k l)); last first.
    { intros _ k _. apply count_cons. }
    rewrite (Zsum_add_pointwise (λ k, if decide (x = k) then 1 else 0) (λ k, count k l)).
    rewrite Zsum_indicator by set_solver. rewrite IH by set_solver. simpl length. lia.
Qed.

Lemma insert_by_Permutation {A} (before : A → A → bool) x l :
  insert_by before x l ≡ₚ x :: l.
Proof.
  induction l as [|y l IH]; simpl; [done|].
  destruct (before y x); [|done]. rewrite IH. apply Permutation_swap.
Qed.

Lemma stable_sort_Permutation {A} (before : A → A → bool) l :
  stable_sort before l ≡ₚ l.
Proof.
  induction l as [|x l IH]; simpl; [done|].
  rewrite insert_by_Permutation. by f_equiv.
Qed.

Lemma insert_desc_sorted (x : cell * Z) (l : Series Z) :
  StronglySorted (λ a b, a.2 >= b.2) l →
  StronglySorted (λ a b, a.2 >= b.2) (insert_by (λ y x, x.2 <? y.2) x l).
Proof.
  induction 1 as [|y l Hs IH Hall]; simpl.
  - repeat constructor.
  - destruct (x.2 <? y.2) eqn:E.
    + apply Z.ltb_lt in E. constructor; [done|].
      rewrite insert_by_Permutation. constructor; [lia|done].
    + apply Z.ltb_ge in E. constructor; [by constructor|].
      constructor; [lia|]. eapply Forall_impl; [exact Hall|]. simpl. intros; lia.
Qed.

Lemma sort_values_desc_sorted (s : Series Z) :
  StronglySorted (λ a b, a.2 >= b.2) (sort_values_desc s).
Proof.
  unfold sort_values_desc. induction s as [|x s IH]; simpl; [constructor|].
  by apply insert_desc_sorted.
Qed.

Lemma sort_values_desc_Permutation (s : Series Z) : sort_values_desc s ≡ₚ s.
Proof. apply stable_sort_Permutation. Qed.

Lemma Zsum_Permutation (l l' : list Z) : l ≡ₚ l' → Zsum l = Zsum l'.
Proof. unfold Zsum. induction 1; simpl; lia. Qed.

End counting.

(** ** Running the helpers *)

Section running.

Lemma column_length T C vs :
  rectangular T → column T C = Some vs → length vs = length (df_index T).
Proof.
  unfold rectangular, column. intros Hr. induction Hr as [|[k v] cs Hc _ IH]; simpl; [done|].
  destruct (decide (k = C)); [|done]. intros [= <-]. done.
Qed.

Lemma getitem_run σ df T C vs :
  heap σ !! df = Some T → rectangular T → column T C = Some vs →
  ∃ s, getitem df C σ = Returns s σ ∧ s_values s = vs.
Proof.
  intros Hdf Hr Hc. exists (zip (df_index T) vs). split.
  - unfold getitem, deref, mbind, py_bind. rewrite Hdf, Hc. done.
  - apply snd_zip. rewrite (column_length T C vs) by done. done.
Qed.

Lemma getitem_KeyError σ df T C :
  heap σ !! df = Some T → column T C = None → getitem df C σ = Raises (KeyError C) σ.
Proof. intros Hdf Hc. unfold getitem, deref, mbind, py_bind. rewrite Hdf, Hc. done. Qed.

Lemma fresh_loc_ne σ (l : loc) T : heap σ !! l = Some T → fresh (dom (heap σ)) ≠ l.
Proof.
  intros Hl Heq. apply (is_fresh (dom (heap σ))). rewrite Heq. apply elem_of_dom. eauto.
Qed.


(** What one call of the table builder does to the store. *)
Lemma create_class_distribution_table_run σ df T C vs :
  heap σ !! df = Some T → rectangular T → column T C = Some vs →
  create_class_distribution_table df C σ =
    Returns (fresh (dom (heap σ)))
      (mkState
         (<[fresh (dom (heap σ)) :=
              summary_frame (s_index (sort_values_desc (value_counts vs)))
                (s_values (sort_values_desc (value_counts vs)))
                ((λ c, share_percent c (nrows T)) <$> s_values (sort_values_desc (value_counts vs)))]>
            (heap σ))
         (canvas σ)).
Proof.
  intros Hdf Hr Hc. destruct (getitem_run σ df T C vs Hdf Hr Hc) as (s & Hs & Hv).
  unfold create_class_distribution_table. unfold mbind at 1, py_bind at 1. rewrite Hs, Hv.
  set (cd := sort_values_desc (value_counts vs)).
  unfold len, deref, pd_DataFrame_dict, alloc, set_index, mbind, py_bind, mret, py_ret.
  rewrite Hdf. cbn [heap canvas]. rewrite !lookup_insert_eq. cbn [df_columns heap canvas].
  rewrite lookup_insert_eq, insert_insert_eq. unfold summary_frame, nrows. cbn [df_index].
  unfold np_round, series_mul, series_truediv, s_index, s_values, share_percent.
  rewrite <- !list_fmap_compose. rewrite !length_fmap.
  repeat f_equal.
Qed.

End running.

(** ** The class distribution of a column *)

Section class_distribution.

Variable vs : list cell.

(** The counts before sorting, in order of first appearance. *)
Let base : Series Z := (λ k, (k, count k (dropna vs))) <$> unique (dropna vs).

Lemma class_distribution_Permutation :
  sort_values_desc (value_counts vs) ≡ₚ base.
Proof.
  unfold value_counts. rewrite !sort_values_desc_Permutation. done.
Qed.

Lemma count_dropna k : k ≠ NA → count k (dropna vs) = count k vs.
Proof.
  intros Hk. unfold count, dropna. f_equal. f_equal.
  induction vs as [|x l IH]; [done|].
  rewrite !filter_cons. destruct (decide (x ≠ NA)) as [Hx|Hx].
  - rewrite filter_cons. destruct (decide (x = k)); simpl; by rewrite IH.
  - destruct (decide (x = k)) as [->|_]; [|done]. by destruct Hx.
Qed.

Lemma elem_of_dropna x : x ∈ dropna vs ↔ x ≠ NA ∧ x ∈ vs.
Proof. unfold dropna. rewrite list_elem_of_filter. done. Qed.

Lemma dropna_id : NA ∉ vs → dropna vs = vs.
Proof.
  unfold dropna. induction vs as [|x l IH]; [done|]. intros Hna.
  rewrite filter_cons_True by set_solver. f_equal. apply IH. set_solver.
Qed.


Lemma class_distribution_sum :
  Zsum (s_values (sort_values_desc (value_counts vs))) = Z.of_nat (length (dropna vs)).
Proof.
  unfold s_values. rewrite (Zsum_Permutation _ (base.*2)).
  - unfold base. rewrite <- list_fmap_compose.
    apply (Zsum_count (unique (dropna vs)) (dropna vs)); [apply NoDup_unique|].
    intros x. by rewrite elem_of_unique.
  - by rewrite class_distribution_Permutation.
Qed.

Lemma class_distribution_entries :
  Forall (λ p : cell * Z,
            p.1 ≠ NA ∧ p.1 ∈ vs ∧ p.2 = count p.1 vs ∧ 1 <= p.2 <= Z.of_nat (length (dropna vs)))
    (sort_values_desc (value_counts vs)).
Proof.
  rewrite class_distribution_Permutation. unfold base. apply Forall_fmap, Forall_forall.
  intros k Hk. rewrite elem_of_unique in Hk. pose proof Hk as Hk'.
  rewrite elem_of_dropna in Hk'. destruct Hk' as [Hna Hin]. cbn [fst snd].
  split_and!; [done|done|by apply count_dropna|by apply count_pos|apply count_le_length].
Qed.


Lemma class_distribution_sorted :
  StronglySorted Z.ge (s_values (sort_values_desc (value_counts vs))).
Proof.
  unfold s_values. generalize (sort_values_desc_sorted (value_counts vs)).
  generalize (sort_values_desc (value_counts vs)). intros l.
  induction 1 as [|x l' Hs IH Hall]; simpl; constructor; [done|].
  apply Forall_fmap. eapply Forall_impl; [exact Hall|]. done.
Qed.

End class_distribution.

(** ** Percentages *)

Section percentages.
Local Open Scope Q_scope.

Lemma Qsum_cons x l : Qsum (x :: l) = x + Qsum l.
Proof. reflexivity. Qed.

Lemma Zsum_cons x l : Zsum (x :: l) = (x + Zsum l)%Z.
Proof. reflexivity. Qed.

(** The rounded percentages of a list of counts add up to the exact share
    of their total, up to the tolerance per entry. *)
Lemma share_percent_sum (cs : list Z) (n : Z) :
  Forall (λ c, 1 <= c <= n)%Z cs →
  Qabs (Qsum ((λ c, share_percent c n) <$> cs) - 100 * inject_Z (Zsum cs) / inject_Z n)
    <= inject_Z (Z.of_nat (length cs)) * tolerance.
Proof.
  induction 1 as [|c cs Hc _ IH].
  - apply Qabs_Qle_condition. cbn. unfold Qdiv. split; unfold Qle; simpl; lia.
  - cbn [fmap list_fmap length]. rewrite Qsum_cons, Zsum_cons.
    pose proof (Float64Facts.percentage_accuracy c n Hc) as Hp.
    assert (Hn : 0 < inject_Z n) by (change 0 with (inject_Z 0); rewrite <- Zlt_Qlt; lia).
    assert (E : 100 * inject_Z (c + Zsum cs) / inject_Z n ==
                100 * inject_Z c / inject_Z n + 100 * inject_Z (Zsum cs) / inject_Z n).
    { rewrite inject_Z_plus. field. lra. }
    rewrite E. rewrite Nat2Z.inj_succ. unfold Z.succ. rewrite inject_Z_plus.
    change (inject_Z 1) with 1.
    apply Qabs_Qle_condition in Hp. apply Qabs_Qle_condition in IH. apply Qabs_Qle_condition.
    split; lra.
Qed.

Lemma share_percent_all (n : Z) : (1 <= n)%Z → share_percent n n = 100.
Proof.
  intros Hn. unfold share_percent. rewrite Float64Facts.div_self.
  - vm_compute. reflexivity.
  - intros H. assert (0 < Float64.of_int n); [|lra].
    apply Float64Facts.round_pos. change 0 with (inject_Z 0). rewrite <- Zlt_Qlt. lia.
Qed.

End percentages.

(** ** The summary table *)



Lemma nrows_column T C vs :
  rectangular T → column T C = Some vs → nrows T = Z.of_nat (length vs).
Proof. intros Hr Hc. unfold nrows. by rewrite (column_length T C vs). Qed.




Lemma class_distribution_counts_bounded vs :
  Forall (λ c, 1 <= c <= Z.of_nat (length (dropna vs)))
    (s_values (sort_values_desc (value_counts vs))).
Proof.
  unfold s_values. apply Forall_fmap.
  eapply Forall_impl; [apply class_distribution_entries|]. intros p (_ & _ & _ & H). done.
Qed.

Lemma length_dropna_le vs : (length (dropna vs) <= length vs)%nat.
Proof. apply length_filter. Qed.

Lemma length_dropna_lt vs : NA ∈ vs → (length (dropna vs) < length vs)%nat.
Proof.
  unfold dropna. induction vs as [|x l IH]; intros Hna; [by apply elem_of_nil in Hna|].
  rewrite filter_cons. destruct (decide (x ≠ NA)) as [Hx|Hx].
  - simpl. apply elem_of_cons in Hna as [Hna|Hna]; [congruence|]. specialize (IH Hna). lia.
  - simpl. pose proof (length_filter (λ x, x ≠ NA) l). lia.
Qed.

Lemma Qsum_exact_shares (cs : list Z) (n : Z) :
  (Qsum ((λ c, 100 * inject_Z c / inject_Z n) <$> cs) == 100 * inject_Z (Zsum cs) / inject_Z n)%Q.
Proof.
  induction cs as [|c cs IH].
  - cbn. unfold Qdiv. ring.
  - cbn [fmap list_fmap]. rewrite Qsum_cons, Zsum_cons, IH, inject_Z_plus. unfold Qdiv. ring.
Qed.

(** C2 (amended): for every table T that has at least one row and every
    column C present in T without a missing entry, the percentages of the
    summary table add up to 100 up to the rounding tolerance of each entry
    (half a unit of the third decimal, and the binary64 error). *)
Theorem summary_percentages_sum σ df T C vs :
  heap σ !! df = Some T → rectangular T → column T C = Some vs →
  NA ∉ vs → vs ≠ [] →
  ∃ t σ' labels counts pcts,
    create_class_distribution_table df C σ = Returns t σ' ∧
    heap σ' !! t = Some (summary_frame labels counts pcts) ∧
    (Qabs (Qsum pcts - 100) <= inject_Z (Z.of_nat (length pcts)) * tolerance)%Q.
Proof.
  intros Hdf Hr Hc Hna Hne. do 5 eexists.
  split; [apply (create_class_distribution_table_run σ df T C vs Hdf Hr Hc)|].
  cbn [heap]. split; [apply lookup_insert_eq|].
  rewrite (nrows_column T C vs Hr Hc).
  pose proof (class_distribution_counts_bounded vs) as Hb.
  pose proof (class_distribution_sum vs) as Hs.
  rewrite (dropna_id vs Hna) in Hb, Hs.
  pose proof (share_percent_sum _ _ Hb) as H. rewrite Hs in H.
  rewrite length_fmap in *.
  assert (Hn : (0 < inject_Z (Z.of_nat (length vs)))%Q).
  { change 0%Q with (inject_Z 0). rewrite <- Zlt_Qlt. destruct vs; [done|simpl; lia]. }
  assert (E : (100 * inject_Z (Z.of_nat (length vs)) / inject_Z (Z.of_nat (length vs)) == 100)%Q).
  { field. lra. }
  rewrite E in H. exact H.
Qed.

Lemma summary_percentages_sum_witness :
  ∃ t σ' labels counts pcts,
    create_class_distribution_table 1%positive "attack_type" (store attacks) = Returns t σ' ∧
    heap σ' !! t = Some (summary_frame labels counts pcts) ∧
    (Qabs (Qsum pcts - 100) <= inject_Z (Z.of_nat (length pcts)) * tolerance)%Q.
Proof.
  apply (summary_percentages_sum (store attacks) 1%positive attacks "attack_type"
           [Str "dos"; Str "dos"; Str "probe"; Str "dos"]).
  - reflexivity.
  - repeat constructor.
  - reflexivity.
  - intros H. repeat (apply elem_of_cons in H as [H|H]; [discriminate|]). by apply elem_of_nil in H.
  - discriminate.
Defined.

(** C2 as stated fails on a table without rows: nothing is excluded, the
    summary is empty and its percentages add up to 0. *)
Lemma summary_percentages_empty_counterexample :
  ∃ t σ',
    create_class_distribution_table 1%positive "label" (store no_rows) = Returns t σ' ∧
    heap σ' !! t = Some (summary_frame [] [] []) ∧
    column no_rows "label" = Some [] ∧
    Qsum [] = 0%Q.
Proof.
  do 2 eexists. split; [vm_compute; reflexivity|]. split; [vm_compute; reflexivity|]. done.
Qed.

(** C9 (amended): the rows whose value in C is missing are left out of the
    counts, which add up to the number of entries of T[C] that are not
    missing, while each percentage is the rounded share of its count in the
    full row count of T.  When T[C] has a missing entry, the counts add up to
    less than the row count and the shares before rounding add up to less
    than 100; the rounded percentages add up to the exact share of the
    counted rows up to the tolerance of each entry. *)
Theorem summary_counts_skip_missing σ df T C vs :
  heap σ !! df = Some T → rectangular T → column T C = Some vs →
  ∃ t σ' labels counts pcts,
    create_class_distribution_table df C σ = Returns t σ' ∧
    heap σ' !! t = Some (summary_frame labels counts pcts) ∧
    Zsum counts = Z.of_nat (length (dropna vs)) ∧
    pcts = (λ c, share_percent c (nrows T)) <$> counts ∧
    (NA ∈ vs →
     Zsum counts < nrows T ∧
     (Qsum ((λ c, 100 * inject_Z c / inject_Z (nrows T)) <$> counts) < 100)%Q) ∧
    (Qabs (Qsum pcts - 100 * inject_Z (Zsum counts) / inject_Z (nrows T))
       <= inject_Z (Z.of_nat (length pcts)) * tolerance)%Q.
Proof.
  intros Hdf Hr Hc. do 5 eexists.
  split; [apply (create_class_distribution_table_run σ df T C vs Hdf Hr Hc)|].
  cbn [heap]. split; [apply lookup_insert_eq|].
  split; [apply class_distribution_sum|]. split; [reflexivity|].
  rewrite (nrows_column T C vs Hr Hc).
  pose proof (class_distribution_counts_bounded vs) as Hb.
  pose proof (length_dropna_le vs) as Hle.
  split.
  - intros Hna. pose proof (length_dropna_lt vs Hna) as Hlt.
    rewrite Qsum_exact_shares, class_distribution_sum. split; [lia|].
    assert (Hn : (0 < inject_Z (Z.of_nat (length vs)))%Q).
    { change 0%Q with (inject_Z 0). rewrite <- Zlt_Qlt. lia. }
    apply Qlt_shift_div_r; [done|].
    assert (inject_Z (Z.of_nat (length (dropna vs))) < inject_Z (Z.of_nat (length vs)))%Q
      by (rewrite <- Zlt_Qlt; lia).
    lra.
  - rewrite length_fmap.
    apply share_percent_sum. eapply Forall_impl; [exact Hb|]. simpl. intros; lia.
Qed.

Lemma summary_counts_skip_missing_witness :
  ∃ t σ' labels counts pcts,
    create_class_distribution_table 1%positive "label" (store with_gap) = Returns t σ' ∧
    heap σ' !! t = Some (summary_frame labels counts pcts) ∧
    Zsum counts = Z.of_nat (length (dropna [Str "a"; NA])) ∧
    pcts = (λ c, share_percent c (nrows with_gap)) <$> counts ∧
    (NA ∈ [Str "a"; NA] →
     Zsum counts < nrows with_gap ∧
     (Qsum ((λ c, 100 * inject_Z c / inject_Z (nrows with_gap)) <$> counts) < 100)%Q) ∧
    (Qabs (Qsum pcts - 100 * inject_Z (Zsum counts) / inject_Z (nrows with_gap))
       <= inject_Z (Z.of_nat (length pcts)) * tolerance)%Q.
Proof.
  apply (summary_counts_skip_missing (store with_gap) 1%positive with_gap "label" [Str "a"; NA]).
  - reflexivity.
  - repeat constructor.
  - reflexivity.
Defined.

Lemma unique_step_NoDup_id (acc l : list cell) :
  NoDup (acc ++ l) →
  foldl (λ acc x, if decide (x ∈ acc) then acc else acc ++ [x]) acc l = acc ++ l.
Proof.
  revert acc. induction l as [|x l IH]; intros acc Hnd; cbn [foldl].
  - by rewrite app_nil_r.
  - rewrite decide_False.
    + rewrite IH; rewrite <- app_assoc; done.
    + apply NoDup_app in Hnd as (_ & Hd & _). intros Hx. apply (Hd x Hx). apply elem_of_cons. by left.
Qed.

Lemma unique_NoDup_id (l : list cell) : NoDup l → unique l = l.
Proof. intros Hnd. unfold unique. by rewrite unique_step_NoDup_id. Qed.

Lemma count_not_elem (k : cell) (l : list cell) : k ∉ l → count k l = 0.
Proof.
  induction l as [|x l IH]; intros Hk; [done|]. rewrite count_cons.
  rewrite decide_False by (intros ->; apply Hk, elem_of_cons; by left).
  rewrite IH; [done|]. intros H. apply Hk, elem_of_cons. by right.
Qed.

Lemma count_NoDup (k : cell) (l : list cell) : NoDup l → k ∈ l → count k l = 1.
Proof.
  induction 1 as [|x l Hx Hnd IH]; intros Hk; [by apply elem_of_nil in Hk|].
  rewrite count_cons. destruct (decide (x = k)) as [->|Hne].
  - by rewrite count_not_elem.
  - rewrite IH; [done|]. apply elem_of_cons in Hk as [->|Hk]; done.
Qed.

Lemma sort_values_desc_equal (s : Series Z) (c : Z) :
  Forall (λ p, p.2 = c) s → sort_values_desc s = s.
Proof.
  unfold sort_values_desc. induction 1 as [|x s Hx Hs IH]; [done|].
  cbn [stable_sort foldr]. fold (stable_sort (λ y x : cell * Z, x.2 <? y.2) s). rewrite IH.
  destruct Hs as [|y s Hy _]; [done|]. cbn [insert_by]. rewrite Hx, Hy, Z.ltb_irrefl. done.
Qed.

(** A column of distinct values, none missing, followed by one missing
    entry: every value is counted once, in order of appearance. *)
Lemma value_counts_distinct (ks : list cell) :
  NoDup ks → NA ∉ ks →
  sort_values_desc (value_counts (ks ++ [NA])) = (λ k, (k, 1)) <$> ks.
Proof.
  intros Hnd Hna. unfold value_counts.
  assert (Hd : dropna (ks ++ [NA]) = ks).
  { unfold dropna. rewrite filter_app, filter_cons_False, filter_nil, app_nil_r by (intros H; by apply H).
    by apply dropna_id. }
  rewrite Hd, (unique_NoDup_id ks Hnd).
  rewrite (list_fmap_ext _ (λ k, (k, 1)) ks); last first.
  { intros i k Hk. f_equal. apply count_NoDup; [done|]. by eapply list_elem_of_lookup_2. }
  assert (Hone : Forall (λ p : cell * Z, p.2 = 1) ((λ k, (k, 1)) <$> ks))
    by (by apply Forall_fmap, Forall_true).
  by rewrite !(sort_values_desc_equal _ 1 Hone).
Qed.

Lemma Qsum_replicate (n : nat) (x : Q) :
  (Qsum (replicate n x) == inject_Z (Z.of_nat n) * x)%Q.
Proof.
  induction n as [|n IH]; [cbn; ring|].
  cbn [replicate]. rewrite Qsum_cons, IH, Nat2Z.inj_succ. unfold Z.succ.
  rewrite inject_Z_plus. ring.
Qed.

(** C9 as stated fails on [many_ids]: one of its 522 rows has no value, each
    of the 521 values is 1/522 of the rows, which is rounded up to 0.192, and
    the percentages add up to more than 100. *)
Lemma summary_percentages_exceed_counterexample :
  ∃ t σ' labels,
    create_class_distribution_table 1%positive "id" (store many_ids) = Returns t σ' ∧
    heap σ' !! t =
      Some (summary_frame labels (replicate 521 1) (replicate 521 (Float64.literal 0.192))) ∧
    column many_ids "id" = Some (((λ i : nat, Str (pretty i)) <$> seq 0 521) ++ [NA]) ∧
    NA ∈ ((λ i : nat, Str (pretty i)) <$> seq 0 521) ++ [NA] ∧
    (100 < Qsum (replicate 521 (Float64.literal 0.192)))%Q.
Proof.
  set (ids := (λ i : nat, Str (pretty i)) <$> seq 0 521).
  assert (Hnd : NoDup ids).
  { apply NoDup_fmap_2; [|apply NoDup_seq]. intros i j [= H]. by apply (inj pretty). }
  assert (Hna : NA ∉ ids).
  { intros H. apply list_elem_of_fmap in H as (i & Hi & _). discriminate. }
  assert (Hrect : rectangular many_ids) by repeat constructor.
  assert (Hdf : heap (store many_ids) !! 1%positive = Some many_ids) by reflexivity.
  assert (Hc : column many_ids "id" = Some (ids ++ [NA])) by reflexivity.
  do 3 eexists. split.
  { apply (create_class_distribution_table_run (store many_ids) 1%positive many_ids "id"
             (ids ++ [NA]) Hdf Hrect Hc). }
  split.
  - lazymatch goal with
    | |- context [heap (mkState ?X ?Y)] => change (heap (mkState X Y)) with X
    end.
    rewrite lookup_insert_eq. apply (f_equal Some).
    rewrite (value_counts_distinct ids Hnd Hna).
    assert (E1 : s_index ((λ k : cell, (k, 1)) <$> ids) = ids).
    { unfold s_index. rewrite <- list_fmap_compose. apply list_fmap_id. }
    assert (E2 : s_values ((λ k : cell, (k, 1)) <$> ids) = replicate 521 1).
    { unfold s_values, ids. rewrite <- !list_fmap_compose. reflexivity. }
    assert (Hn : nrows many_ids = 522) by reflexivity.
    assert (Hp : share_percent 1 522 = Float64.literal 0.192) by (vm_compute; reflexivity).
    rewrite E1, E2, fmap_replicate, Hn, Hp. reflexivity.
  - split; [exact Hc|].
    split; [apply elem_of_app; right; apply list_elem_of_singleton; done|].
    rewrite Qsum_replicate. vm_compute. reflexivity.
Qed.






(** The boundary on a sample: three rows of "dos" give the one row
    (dos, 3, 100.0). *)
Example summary_one_class :
  ∃ t σ',
    create_class_distribution_table 1%positive "attack_type" (store one_class) = Returns t σ' ∧
    heap σ' !! t = Some (summary_frame [Str "dos"] [3] [100%Q]) ∧
    size (value_set [Str "dos"; Str "dos"; Str "dos"]) = 1%nat.
Proof.
  do 2 eexists. split; [vm_compute; reflexivity|]. split; vm_compute; reflexivity.
Qed.




(** C6: two calls in a row on the same table and column, the table being
    left as it was, return two tables with the same content. *)
Theorem summary_deterministic σ df T C vs :
  heap σ !! df = Some T → rectangular T → column T C = Some vs →
  ∃ t1 σ1 t2 σ2 tbl,
    create_class_distribution_table df C σ = Returns t1 σ1 ∧
    create_class_distribution_table df C σ1 = Returns t2 σ2 ∧
    t1 ≠ t2 ∧
    heap σ2 !! t1 = Some tbl ∧ heap σ2 !! t2 = Some tbl.
Proof.
  intros Hdf Hr Hc. do 5 eexists.
  split; [apply (create_class_distribution_table_run σ df T C vs Hdf Hr Hc)|].
  set (t1 := fresh (dom (heap σ))).
  set (tbl := summary_frame _ _ _).
  set (σ1 := mkState (<[t1 := tbl]> (heap σ)) (canvas σ)).
  assert (Hdf1 : heap σ1 !! df = Some T).
  { unfold σ1. cbn [heap]. rewrite lookup_insert_ne; [done|]. by eapply fresh_loc_ne. }
  split; [apply (create_class_distribution_table_run σ1 df T C vs Hdf1 Hr Hc)|].
  set (t2 := fresh (dom (heap σ1))).
  assert (Hne : t1 ≠ t2).
  { intros Heq. apply (fresh_loc_ne σ1 t1 tbl); [|done]. unfold σ1. cbn [heap]. apply lookup_insert_eq. }
  split; [done|]. cbn [heap]. split.
  - rewrite lookup_insert_ne by done. unfold σ1. cbn [heap]. apply lookup_insert_eq.
  - apply lookup_insert_eq.
Qed.

Lemma summary_deterministic_witness :
  ∃ t1 σ1 t2 σ2 tbl,
    create_class_distribution_table 1%positive "attack_type" (store attacks) = Returns t1 σ1 ∧
    create_class_distribution_table 1%positive "attack_type" σ1 = Returns t2 σ2 ∧
    t1 ≠ t2 ∧
    heap σ2 !! t1 = Some tbl ∧ heap σ2 !! t2 = Some tbl.
Proof.
  apply (summary_deterministic (store attacks) 1%positive attacks "attack_type"
           [Str "dos"; Str "dos"; Str "probe"; Str "dos"]).
  - reflexivity.
  - repeat constructor.
  - reflexivity.
Defined.

(** ** The two tables of exclusive values *)








(** ** The helpers and the tables of the store *)

Section frame.

Variable l : loc.
Variable T : DataFrame.

Lemma keeps_final {A} (m : py A) Q σ :
  keeps l T m Q → heap σ !! l = Some T → heap (final (m σ)) !! l = Some T.
Proof. intros Hm Hl. specialize (Hm σ Hl). destruct (m σ); simpl; tauto. Qed.

Lemma keeps_weaken {A} (m : py A) (Q R : A → Prop) :
  (∀ a, Q a → R a) → keeps l T m Q → keeps l T m R.
Proof. intros HQR Hm σ Hl. specialize (Hm σ Hl). destruct (m σ); naive_solver. Qed.

Lemma keeps_ret {A} (a : A) (Q : A → Prop) : Q a → keeps l T (mret a) Q.
Proof. intros Ha σ Hl. done. Qed.

Lemma keeps_raise {A} e (Q : A → Prop) : keeps l T (raise e) Q.
Proof. intros σ Hl. done. Qed.

Lemma keeps_bind {A B} (m : py A) (f : A → py B) (Q : A → Prop) (R : B → Prop) :
  keeps l T m Q → (∀ a, Q a → keeps l T (f a) R) → keeps l T (m ≫= f) R.
Proof.
  intros Hm Hf σ Hl. unfold mbind, py_bind. specialize (Hm σ Hl).
  destruct (m σ) as [a σ'|e σ']; [|done]. destruct Hm as [Ha Hl']. by apply Hf.
Qed.

Lemma keeps_deref t : keeps l T (deref t) (λ _, True).
Proof. intros σ Hl. unfold deref. by destruct (heap σ !! t). Qed.

Lemma keeps_getitem df C : keeps l T (getitem df C) (λ _, True).
Proof.
  unfold getitem. eapply keeps_bind; [apply keeps_deref|]. intros T' _.
  destruct (column T' C); [by apply keeps_ret|apply keeps_raise].
Qed.

Lemma keeps_len df : keeps l T (len df) (λ _, True).
Proof.
  unfold len. eapply keeps_bind; [apply keeps_deref|]. intros. by apply keeps_ret.
Qed.

Lemma keeps_plt c : keeps l T (plt c) (λ _, True).
Proof. intros σ Hl. done. Qed.

(** A new table gets an address that no table of the store has. *)
Lemma keeps_alloc T' : keeps l T (alloc T') (λ t, t ≠ l).
Proof.
  intros σ Hl. unfold alloc. cbn [heap]. split; [by eapply fresh_loc_ne|].
  rewrite lookup_insert_ne; [done|]. by eapply fresh_loc_ne.
Qed.

Lemma keeps_set_index t labels : t ≠ l → keeps l T (set_index t labels) (λ _, True).
Proof.
  intros Hne σ Hl. unfold set_index. destruct (heap σ !! t); [|done].
  cbn [heap]. by rewrite lookup_insert_ne.
Qed.

Lemma keeps_set_columns t names : t ≠ l → keeps l T (set_columns t names) (λ _, True).
Proof.
  intros Hne σ Hl. unfold set_columns. destruct (heap σ !! t); [|done].
  cbn [heap]. by rewrite lookup_insert_ne.
Qed.

Lemma keeps_sort_frame_desc t by_ : keeps l T (sort_frame_desc t by_) (λ t', t' ≠ l).
Proof.
  unfold sort_frame_desc. eapply keeps_bind; [apply keeps_deref|]. intros T' _.
  destruct (column T' by_); [apply keeps_alloc|apply keeps_raise].
Qed.

Lemma keeps_for_each {A} (xs : list A) (body : A → py unit) :
  (∀ x, keeps l T (body x) (λ _, True)) → keeps l T (for_each xs body) (λ _, True).
Proof.
  intros Hb. induction xs as [|x xs IH]; simpl; [by apply keeps_ret|].
  eapply keeps_bind; [apply Hb|]. intros _ _. apply IH.
Qed.

Lemma keeps_if {A} (b : bool) (m1 m2 : py A) Q :
  keeps l T m1 Q → keeps l T m2 Q → keeps l T (if b then m1 else m2) Q.
Proof. by destruct b. Qed.

End frame.

(** Chains of calls are taken apart call by call. *)
Ltac keeps_step :=
  first
    [ apply keeps_plt
    | by apply keeps_ret
    | apply keeps_raise
    | apply keeps_getitem
    | apply keeps_len
    | apply keeps_deref
    | apply keeps_if
    | by apply keeps_set_index
    | by apply keeps_set_columns
    | eapply keeps_bind; [apply keeps_alloc|intros ? ?]
    | eapply keeps_bind; [apply keeps_sort_frame_desc|intros ? ?]
    | eapply keeps_bind; [apply keeps_plt|intros _ _]
    | eapply keeps_bind; [apply keeps_getitem|intros ? _]
    | eapply keeps_bind; [apply keeps_len|intros ? _]
    | eapply keeps_bind; [apply keeps_deref|intros ? _] ].

Lemma keeps_plot_class_distribution l T df column title xlabel ylabel figsize color_map rotation :
  keeps l T (plot_class_distribution df column title xlabel ylabel figsize color_map rotation)
    (λ _, True).
Proof.
  unfold plot_class_distribution. do 3 keeps_step.
  eapply keeps_bind.
  { apply keeps_for_each. intros [bar [height percentage]]. repeat keeps_step. }
  intros _ _. repeat keeps_step.
Qed.

Lemma keeps_plot_pie_chart_distribution l T df column title figsize explode_threshold :
  keeps l T (plot_pie_chart_distribution df column title figsize explode_threshold) (λ _, True).
Proof. unfold plot_pie_chart_distribution. repeat keeps_step. Qed.

Lemma keeps_plot_grouped_bar l T df category sub_category count title xlabel ylabel figsize rotation :
  keeps l T (plot_grouped_bar df category sub_category count title xlabel ylabel figsize rotation)
    (λ _, True).
Proof. unfold plot_grouped_bar. repeat keeps_step. Qed.

Lemma keeps_create_class_distribution_table l T df column_name :
  keeps l T (create_class_distribution_table df column_name) (λ t, t ≠ l).
Proof.
  unfold create_class_distribution_table, pd_DataFrame_dict. do 3 keeps_step.
  eapply keeps_bind; [apply keeps_len|intros ? _].
  eapply keeps_bind; [by apply keeps_set_index|intros _ _]. by apply keeps_ret.
Qed.

Lemma keeps_find_unique_values l T df1 df2 column_name df1_name df2_name :
  keeps l T (find_unique_values df1 df2 column_name df1_name df2_name)
    (λ t, t.1 ≠ l ∧ t.2 ≠ l).
Proof.
  unfold find_unique_values, pd_DataFrame_list. do 4 keeps_step. by apply keeps_ret.
Qed.

Lemma keeps_plot_line_distribution l T df column figsize rotation grid title xlabel ylabel :
  keeps l T (plot_line_distribution df column figsize rotation grid title xlabel ylabel)
    (λ _, True).
Proof.
  unfold plot_line_distribution. do 2 keeps_step.
  eapply keeps_bind; [by apply keeps_set_columns|intros _ _].
  do 4 keeps_step.
  eapply keeps_bind; [apply keeps_if; repeat keeps_step|intros _ _].
  eapply keeps_bind; [apply keeps_if; repeat keeps_step|intros _ _].
  keeps_step.
  eapply keeps_bind; [apply keeps_if; repeat keeps_step|intros _ _].
  repeat keeps_step.
Qed.

(** C8: no helper changes a table that is in the store when it is called,
    its argument tables among them: after the call, be it ended by a return
    or by an exception, every such table has the index, the columns and the
    values it had. *)
Theorem helpers_keep_tables σ l T :
  heap σ !! l = Some T →
  (∀ df column title xlabel ylabel figsize color_map rotation,
     heap (final (plot_class_distribution df column title xlabel ylabel
                    figsize color_map rotation σ)) !! l = Some T) ∧
  (∀ df column title figsize explode_threshold,
     heap (final (plot_pie_chart_distribution df column title figsize explode_threshold σ)) !! l
       = Some T) ∧
  (∀ df category sub_category count title xlabel ylabel figsize rotation,
     heap (final (plot_grouped_bar df category sub_category count title xlabel ylabel
                    figsize rotation σ)) !! l = Some T) ∧
  (∀ df column_name,
     heap (final (create_class_distribution_table df column_name σ)) !! l = Some T) ∧
  (∀ df1 df2 column_name df1_name df2_name,
     heap (final (find_unique_values df1 df2 column_name df1_name df2_name σ)) !! l = Some T) ∧
  (∀ df column figsize rotation grid title xlabel ylabel,
     heap (final (plot_line_distribution df column figsize rotation grid title xlabel ylabel σ)) !! l
       = Some T).
Proof.
  intros Hl. split_and!; intros.
  - eapply keeps_final; [apply keeps_plot_class_distribution|done].
  - eapply keeps_final; [apply keeps_plot_pie_chart_distribution|done].
  - eapply keeps_final; [apply keeps_plot_grouped_bar|done].
  - eapply keeps_final; [apply keeps_create_class_distribution_table|done].
  - eapply keeps_final; [apply keeps_find_unique_values|done].
  - eapply keeps_final; [apply keeps_plot_line_distribution|done].
Qed.

Lemma helpers_keep_tables_witness :
  (∀ df column title xlabel ylabel figsize color_map rotation,
     heap (final (plot_class_distribution df column title xlabel ylabel
                    figsize color_map rotation (store attacks))) !! 1%positive = Some attacks) ∧
  (∀ df column title figsize explode_threshold,
     heap (final (plot_pie_chart_distribution df column title figsize explode_threshold
                    (store attacks))) !! 1%positive = Some attacks) ∧
  (∀ df category sub_category count title xlabel ylabel figsize rotation,
     heap (final (plot_grouped_bar df category sub_category count title xlabel ylabel
                    figsize rotation (store attacks))) !! 1%positive = Some attacks) ∧
  (∀ df column_name,
     heap (final (create_class_distribution_table df column_name (store attacks))) !! 1%positive
       = Some attacks) ∧
  (∀ df1 df2 column_name df1_name df2_name,
     heap (final (find_unique_values df1 df2 column_name df1_name df2_name (store attacks)))
       !! 1%positive = Some attacks) ∧
  (∀ df column figsize rotation grid title xlabel ylabel,
     heap (final (plot_line_distribution df column figsize rotation grid title xlabel ylabel
                    (store attacks))) !! 1%positive = Some attacks).
Proof.
  apply (helpers_keep_tables (store attacks) 1%positive attacks). reflexivity.
Defined.

(** ** Keyword defaults *)

(** C7 (amended): a call that leaves a keyword out is the call that passes
    its default: the figure size is (12, 7) for the bar chart, (10, 8) for the
    pie chart and (15, 7) for the grouped bar chart and the line chart; the
    rotation is 45 for the two bar charts and 90 for the line chart; the
    explode threshold is 0.05; the colour palette is "jet". *)
Theorem keyword_defaults :
  (∀ df column title xlabel ylabel color_map rotation,
     plot_class_distribution df column title xlabel ylabel None color_map rotation =
     plot_class_distribution df column title xlabel ylabel (Some (12, 7)) color_map rotation) ∧
  (∀ df column title explode_threshold,
     plot_pie_chart_distribution df column title None explode_threshold =
     plot_pie_chart_distribution df column title (Some (10, 8)) explode_threshold) ∧
  (∀ df category sub_category count title xlabel ylabel rotation,
     plot_grouped_bar df category sub_category count title xlabel ylabel None rotation =
     plot_grouped_bar df category sub_category count title xlabel ylabel (Some (15, 7)) rotation) ∧
  (∀ df column rotation grid title xlabel ylabel,
     plot_line_distribution df column None rotation grid title xlabel ylabel =
     plot_line_distribution df column (Some (15, 7)) rotation grid title xlabel ylabel) ∧
  (∀ df column title xlabel ylabel figsize color_map,
     plot_class_distribution df column title xlabel ylabel figsize color_map None =
     plot_class_distribution df column title xlabel ylabel figsize color_map (Some 45)) ∧
  (∀ df category sub_category count title xlabel ylabel figsize,
     plot_grouped_bar df category sub_category count title xlabel ylabel figsize None =
     plot_grouped_bar df category sub_category count title xlabel ylabel figsize (Some 45)) ∧
  (∀ df column figsize grid title xlabel ylabel,
     plot_line_distribution df column figsize None grid title xlabel ylabel =
     plot_line_distribution df column figsize (Some 90) grid title xlabel ylabel) ∧
  (∀ df column title figsize,
     plot_pie_chart_distribution df column title figsize None =
     plot_pie_chart_distribution df column title figsize (Some (Float64.literal 0.05))) ∧
  (∀ df column title xlabel ylabel figsize rotation,
     plot_class_distribution df column title xlabel ylabel figsize None rotation =
     plot_class_distribution df column title xlabel ylabel figsize (Some "jet") rotation).
Proof. split_and!; reflexivity. Qed.

(** C7 as stated fails for the pie chart: called without a figure size, it
    opens a figure of size (10, 8). *)
Lemma pie_chart_figsize_counterexample :
  canvas (final (plot_pie_chart_distribution 1%positive "attack_type" "Attacks" None None
                   (store attacks))) =
    [plt_figure (10, 8);
     plt_pie [3; 1] [Str "dos"; Str "probe"] [Float64.of_int 0; Float64.of_int 0];
     plt_title "Attacks"; plt_show] ∧
  (10, 8) ≠ ((12, 7) : figsize_t) ∧ (10, 8) ≠ ((15, 7) : figsize_t).
Proof. split; [vm_compute; reflexivity|]. split; discriminate. Qed.


(** * Further properties of the helpers *)

(** ** Missing columns *)

(** X1: a column that the table does not have: the table builder raises
    [KeyError] for it, and leaves the store and the canvas as they were (no
    table is created). *)
Theorem summary_missing_column σ df T C :
  heap σ !! df = Some T → column T C = None →
  create_class_distribution_table df C σ = Raises (KeyError C) σ.
Proof.
  intros Hdf Hc. unfold create_class_distribution_table, mbind, py_bind.
  by rewrite (getitem_KeyError σ df T C Hdf Hc).
Qed.

Lemma summary_missing_column_witness :
  create_class_distribution_table 1%positive "label" (store attacks) =
    Raises (KeyError "label") (store attacks).
Proof.
  apply (summary_missing_column (store attacks) 1%positive attacks "label"); reflexivity.
Defined.

(** X2: the comparison raises [KeyError] when either table lacks the column,
    and then has created neither of its two tables: the store and the canvas
    are as they were. *)
Theorem exclusive_values_missing_column σ df1 df2 T1 T2 C n1 n2 :
  heap σ !! df1 = Some T1 → heap σ !! df2 = Some T2 →
  column T1 C = None ∨ column T2 C = None →
  find_unique_values df1 df2 C n1 n2 σ = Raises (KeyError C) σ.
Proof.
  intros Hdf1 Hdf2 Hc. unfold find_unique_values.
  destruct (column T1 C) as [vs1|] eqn:Hc1.
  - destruct Hc as [Hc|Hc]; [done|].
    unfold mbind at 1, py_bind at 1. unfold getitem at 1, deref, mbind, py_bind, mret, py_ret.
    rewrite Hdf1, Hc1. by rewrite (getitem_KeyError σ df2 T2 C Hdf2 Hc).
  - unfold mbind, py_bind. by rewrite (getitem_KeyError σ df1 T1 C Hdf1 Hc1).
Qed.

Lemma exclusive_values_missing_column_witness :
  find_unique_values 1%positive 2%positive "x" None None (store2 left_table attacks) =
    Raises (KeyError "x") (store2 left_table attacks).
Proof.
  apply (exclusive_values_missing_column (store2 left_table attacks) 1%positive 2%positive
           left_table attacks "x" None None); [reflexivity|reflexivity|right; reflexivity].
Defined.

(** X3: the plotting helpers raise [KeyError] for a column that the table does
    not have before they draw anything: the canvas and the store are as they
    were.  The grouped bar chart looks the category column up first. *)
Theorem plots_missing_column σ df T C :
  heap σ !! df = Some T → column T C = None →
  (∀ title xlabel ylabel figsize color_map rotation,
     plot_class_distribution df C title xlabel ylabel figsize color_map rotation σ =
       Raises (KeyError C) σ) ∧
  (∀ title figsize explode_threshold,
     plot_pie_chart_distribution df C title figsize explode_threshold σ = Raises (KeyError C) σ) ∧
  (∀ figsize rotation grid title xlabel ylabel,
     plot_line_distribution df C figsize rotation grid title xlabel ylabel σ =
       Raises (KeyError C) σ) ∧
  (∀ sub_category count title xlabel ylabel figsize rotation,
     plot_grouped_bar df C sub_category count title xlabel ylabel figsize rotation σ =
       Raises (KeyError C) σ) ∧
  (∀ category count title xlabel ylabel figsize rotation,
     is_Some (column T category) →
     plot_grouped_bar df category C count title xlabel ylabel figsize rotation σ =
       Raises (KeyError C) σ).
Proof.
  intros Hdf Hc. pose proof (getitem_KeyError σ df T C Hdf Hc) as Hk. split_and!; intros.
  - unfold plot_class_distribution, mbind, py_bind. by rewrite Hk.
  - unfold plot_pie_chart_distribution, mbind, py_bind. by rewrite Hk.
  - unfold plot_line_distribution, mbind, py_bind. by rewrite Hk.
  - unfold plot_grouped_bar, mbind, py_bind. by rewrite Hk.
  - destruct H as [vs Hvs]. unfold plot_grouped_bar.
    unfold mbind at 1, py_bind at 1. unfold getitem at 1, deref, mbind, py_bind, mret, py_ret.
    rewrite Hdf, Hvs. by rewrite Hk.
Qed.

Lemma plots_missing_column_witness :
  (∀ title xlabel ylabel figsize color_map rotation,
     plot_class_distribution 1%positive "proto" title xlabel ylabel figsize color_map rotation
       (store attacks) = Raises (KeyError "proto") (store attacks)) ∧
  (∀ title figsize explode_threshold,
     plot_pie_chart_distribution 1%positive "proto" title figsize explode_threshold
       (store attacks) = Raises (KeyError "proto") (store attacks)) ∧
  (∀ figsize rotation grid title xlabel ylabel,
     plot_line_distribution 1%positive "proto" figsize rotation grid title xlabel ylabel
       (store attacks) = Raises (KeyError "proto") (store attacks)) ∧
  (∀ sub_category count title xlabel ylabel figsize rotation,
     plot_grouped_bar 1%positive "proto" sub_category count title xlabel ylabel figsize rotation
       (store attacks) = Raises (KeyError "proto") (store attacks)) ∧
  (∀ category count title xlabel ylabel figsize rotation,
     is_Some (column attacks category) →
     plot_grouped_bar 1%positive category "proto" count title xlabel ylabel figsize rotation
       (store attacks) = Raises (KeyError "proto") (store attacks)).
Proof.
  apply (plots_missing_column (store attacks) 1%positive attacks "proto"); reflexivity.
Defined.

(** ** What the helpers leave alone *)

Section unchanged.

Context {B : Type} (proj : state → B).

Lemma unchanged_ret {A} (a : A) : unchanged proj (mret a).
Proof. intros σ. done. Qed.

Lemma unchanged_raise {A} e : unchanged proj (raise e : py A).
Proof. intros σ. done. Qed.

Lemma unchanged_bind {A C} (m : py A) (f : A → py C) :
  unchanged proj m → (∀ a, unchanged proj (f a)) → unchanged proj (m ≫= f).
Proof.
  intros Hm Hf σ. unfold mbind, py_bind. specialize (Hm σ).
  destruct (m σ) as [a σ'|e σ']; [|done]. rewrite <- Hm. apply Hf.
Qed.

Lemma unchanged_deref t : unchanged proj (deref t).
Proof. intros σ. unfold deref. by destruct (heap σ !! t). Qed.

Lemma unchanged_getitem df C : unchanged proj (getitem df C).
Proof.
  unfold getitem. apply unchanged_bind; [apply unchanged_deref|]. intros T.
  destruct (column T C); [apply unchanged_ret|apply unchanged_raise].
Qed.

Lemma unchanged_len df : unchanged proj (len df).
Proof. unfold len. apply unchanged_bind; [apply unchanged_deref|]. intros. apply unchanged_ret. Qed.

Lemma unchanged_for_each {A} (xs : list A) (body : A → py unit) :
  (∀ x, unchanged proj (body x)) → unchanged proj (for_each xs body).
Proof.
  intros Hb. induction xs as [|x xs IH]; simpl; [apply unchanged_ret|].
  apply unchanged_bind; [apply Hb|]. intros _. apply IH.
Qed.

End unchanged.

Lemma canvas_unchanged_alloc T : unchanged canvas (alloc T).
Proof. intros σ. done. Qed.

Lemma canvas_unchanged_set_index t labels : unchanged canvas (set_index t labels).
Proof. intros σ. unfold set_index. by destruct (heap σ !! t). Qed.

Lemma heap_unchanged_plt c : unchanged heap (plt c).
Proof. intros σ. done. Qed.

(** X4: the two helpers that return tables draw nothing, whatever they are
    called with and however they end: the canvas is as it was. *)
Theorem table_helpers_draw_nothing σ :
  (∀ df column_name,
     canvas (final (create_class_distribution_table df column_name σ)) = canvas σ) ∧
  (∀ df1 df2 column_name df1_name df2_name,
     canvas (final (find_unique_values df1 df2 column_name df1_name df2_name σ)) = canvas σ).
Proof.
  split; intros.
  - revert σ. change (unchanged canvas (create_class_distribution_table df column_name)).
    unfold create_class_distribution_table, pd_DataFrame_dict.
    apply unchanged_bind; [apply unchanged_getitem|intros ?].
    apply unchanged_bind; [apply unchanged_len|intros ?].
    apply unchanged_bind; [apply canvas_unchanged_alloc|intros ?].
    apply unchanged_bind; [apply unchanged_len|intros ?].
    apply unchanged_bind; [apply canvas_unchanged_set_index|intros ?]. apply unchanged_ret.
  - revert σ. change (unchanged canvas (find_unique_values df1 df2 column_name df1_name df2_name)).
    unfold find_unique_values, pd_DataFrame_list.
    apply unchanged_bind; [apply unchanged_getitem|intros ?].
    apply unchanged_bind; [apply unchanged_getitem|intros ?].
    apply unchanged_bind; [apply canvas_unchanged_alloc|intros ?].
    apply unchanged_bind; [apply canvas_unchanged_alloc|intros ?]. apply unchanged_ret.
Qed.

(** X5: the bar chart and the pie chart create no table: the store after the
    call is the store before it, whatever they are called with and however
    they end. *)
Theorem bar_and_pie_keep_store σ :
  (∀ df column title xlabel ylabel figsize color_map rotation,
     heap (final (plot_class_distribution df column title xlabel ylabel
                    figsize color_map rotation σ)) = heap σ) ∧
  (∀ df column title figsize explode_threshold,
     heap (final (plot_pie_chart_distribution df column title figsize explode_threshold σ))
       = heap σ).
Proof.
  split; [intros df col title xlabel ylabel figsize color_map rotation
         |intros df col title figsize explode_threshold].
  - revert σ.
    change (unchanged heap (plot_class_distribution df col title xlabel ylabel
                              figsize color_map rotation)).
    unfold plot_class_distribution.
    apply unchanged_bind; [apply unchanged_getitem|intros ?].
    do 2 (apply unchanged_bind; [apply heap_unchanged_plt|intros ?]).
    apply unchanged_bind.
    { apply unchanged_for_each. intros [bar [height percentage]].
      apply unchanged_bind; [apply heap_unchanged_plt|intros ?]. apply heap_unchanged_plt. }
    intros ?. repeat (apply unchanged_bind; [apply heap_unchanged_plt|intros ?]).
    apply heap_unchanged_plt.
  - revert σ.
    change (unchanged heap (plot_pie_chart_distribution df col title figsize explode_threshold)).
    unfold plot_pie_chart_distribution.
    apply unchanged_bind; [apply unchanged_getitem|intros ?].
    repeat (apply unchanged_bind; [apply heap_unchanged_plt|intros ?]).
    apply heap_unchanged_plt.
Qed.

(** ** Order and exactness in the binary64 model *)

Module Float64Order.
Import Float64 Float64Facts.
Local Open Scope Q_scope.

Lemma rne_mono x y : x <= y → (rne x <= rne y)%Z.
Proof.
  intros Hxy. destruct (Z_le_gt_dec (rne x) (rne y)) as [H|H]; [done|].
  pose proof (rne_spec x) as Hx. pose proof (rne_spec y) as Hy.
  apply Qabs_Qle_condition in Hx. apply Qabs_Qle_condition in Hy.
  assert (H1 : inject_Z (rne y) + 1 <= inject_Z (rne x)).
  { change 1 with (inject_Z 1). rewrite <- inject_Z_plus, <- Zle_Qle. lia. }
  assert (Heq : x == y) by lra.
  rewrite (rne_comp x y Heq) in H. lia.
Qed.

Lemma ilog2_mono x y : 0 < x → x <= y → (ilog2 x <= ilog2 y)%Z.
Proof.
  intros Hx Hxy. assert (Hy : 0 < y) by lra.
  destruct (ilog2_spec x Hx) as [Hx1 _]. destruct (ilog2_spec y Hy) as [_ Hy2].
  destruct (Z_le_gt_dec (ilog2 x) (ilog2 y)) as [H|H]; [done|].
  assert (pow2 (ilog2 y + 1) <= pow2 (ilog2 x)) by (apply pow2_le; lia). lra.
Qed.

(** The significand of a rounded positive number lies in [2^52, 2^53]. *)
Lemma significand_bounds q :
  0 < q →
  (2 ^ (prec - 1) <= rne (q * pow2 (prec - 1 - ilog2 q)) <= 2 ^ prec)%Z.
Proof.
  intros Hq. split.
  - apply rne_ge. rewrite <- pow2_Z by (unfold prec; lia). by apply round_scaled.
  - apply rne_le. rewrite <- pow2_Z by (unfold prec; lia).
    destruct (ilog2_spec q Hq) as [_ H2].
    apply Qle_trans with (pow2 (ilog2 q + 1) * pow2 (prec - 1 - ilog2 q)).
    + apply Qmult_le_compat_r; [lra|]. apply Qlt_le_weak, pow2_pos.
    + rewrite <- pow2_add. apply pow2_le. lia.
Qed.

Lemma round_between q :
  0 < q → pow2 (ilog2 q) <= round q ∧ round q <= pow2 (ilog2 q + 1).
Proof.
  intros Hq. rewrite (round_pos_eq q Hq). destruct (significand_bounds q Hq) as [H1 H2].
  set (m := rne (q * pow2 (prec - 1 - ilog2 q))) in *.
  pose proof (pow2_pos (ilog2 q - (prec - 1))) as Hp.
  rewrite Zle_Qle in H1, H2. rewrite <- !pow2_Z in H1, H2 by (unfold prec; lia).
  split.
  - apply Qle_trans with (pow2 (prec - 1) * pow2 (ilog2 q - (prec - 1))).
    + rewrite <- pow2_add. apply pow2_le. lia.
    + apply Qmult_le_compat_r; [done|lra].
  - apply Qle_trans with (pow2 prec * pow2 (ilog2 q - (prec - 1))).
    + apply Qmult_le_compat_r; [done|lra].
    + rewrite <- pow2_add. apply pow2_le. lia.
Qed.

(** Rounding keeps the order. *)
Lemma round_mono x y : 0 <= x → x <= y → round x <= round y.
Proof.
  intros Hx Hxy. destruct (Qle_lt_or_eq _ _ Hx) as [Hpos|Hz].
  - assert (Hy : 0 < y) by lra.
    pose proof (ilog2_mono x y Hpos Hxy) as He.
    destruct (Z.eq_dec (ilog2 x) (ilog2 y)) as [Heq|Hne].
    + rewrite (round_pos_eq x Hpos), (round_pos_eq y Hy), Heq.
      apply Qmult_le_compat_r; [|apply Qlt_le_weak, pow2_pos].
      rewrite <- Zle_Qle. apply rne_mono.
      apply Qmult_le_compat_r; [done|]. apply Qlt_le_weak, pow2_pos.
    + destruct (round_between x Hpos) as [_ H1]. destruct (round_between y Hy) as [H2 _].
      assert (pow2 (ilog2 x + 1) <= pow2 (ilog2 y)) by (apply pow2_le; lia). lra.
  - rewrite (round_comp x 0) by (symmetry; done). change (round 0) with 0.
    apply round_nonneg. lra.
Qed.


End Float64Order.

(** ** More on the summary table *)

Section summary_order.
Import Float64 Float64Facts Float64Order.
Local Open Scope Q_scope.

Lemma inject_Z_nonneg z : (0 <= z)%Z → 0 <= inject_Z z.
Proof. intros. change 0 with (inject_Z 0). by rewrite <- Zle_Qle. Qed.

Lemma Qdiv_le_compat_r x y z : 0 < z → x <= y → x / z <= y / z.
Proof.
  intros Hz Hxy. unfold Qdiv. apply Qmult_le_compat_r; [done|].
  apply Qlt_le_weak, Qinv_lt_0_compat. done.
Qed.

Lemma Qdiv_nonneg x z : 0 <= x → 0 < z → 0 <= x / z.
Proof. intros Hx Hz. apply Qle_shift_div_l; [done|]. lra. Qed.

(** A larger count never gets a smaller percentage. *)
Lemma share_percent_mono c1 c2 n :
  (0 <= c1 <= c2)%Z → (1 <= n)%Z → share_percent c1 n <= share_percent c2 n.
Proof.
  intros [H0 H12] Hn. unfold share_percent, round_half_even.
  rewrite of_int_1000, of_int_100. unfold rint, mul, div.
  assert (Hfn : 0 < of_int n).
  { apply round_pos. change 0 with (inject_Z 0). rewrite <- Zlt_Qlt. lia. }
  assert (Hc1 : 0 <= of_int c1) by (apply round_nonneg, inject_Z_nonneg; lia).
  assert (Hc : of_int c1 <= of_int c2).
  { apply round_mono; [apply inject_Z_nonneg; lia|]. rewrite <- Zle_Qle. lia. }
  assert (Hq1 : 0 <= of_int c1 / of_int n) by (by apply Qdiv_nonneg).
  assert (Hd : round (of_int c1 / of_int n) <= round (of_int c2 / of_int n)).
  { apply round_mono; [done|]. by apply Qdiv_le_compat_r. }
  assert (Hd1 : 0 <= round (of_int c1 / of_int n)) by (by apply round_nonneg).
  set (d1 := round (of_int c1 / of_int n)) in *. set (d2 := round (of_int c2 / of_int n)) in *.
  assert (Hh : round (d1 * 100) <= round (d2 * 100)) by (apply round_mono; lra).
  assert (Hh1 : 0 <= round (d1 * 100)) by (apply round_nonneg; lra).
  set (h1 := round (d1 * 100)) in *. set (h2 := round (d2 * 100)) in *.
  assert (Ht : round (h1 * 1000) <= round (h2 * 1000)) by (apply round_mono; lra).
  assert (Ht1 : 0 <= round (h1 * 1000)) by (apply round_nonneg; lra).
  set (t1 := round (h1 * 1000)) in *. set (t2 := round (h2 * 1000)) in *.
  pose proof (rne_mono t1 t2 Ht) as Hk.
  assert (Hk1 : (0 <= rne t1)%Z) by (by apply rne_ge).
  apply round_mono.
  - apply Qdiv_nonneg; [by apply inject_Z_nonneg|reflexivity].
  - apply Qdiv_le_compat_r; [reflexivity|]. by rewrite <- Zle_Qle.
Qed.

Lemma share_percent_range c n :
  (0 <= c <= n)%Z → (1 <= n)%Z → 0 <= share_percent c n ∧ share_percent c n <= 100.
Proof.
  intros Hc Hn. split.
  - unfold share_percent, round_half_even, div. apply round_nonneg.
    rewrite of_int_1000. apply Qdiv_nonneg; [|reflexivity].
    unfold rint. apply inject_Z_nonneg, rne_ge. unfold mul. apply round_nonneg.
    change (inject_Z 0) with 0.
    assert (0 <= round (round (of_int c / of_int n) * of_int 100)); [|lra].
    apply round_nonneg. rewrite of_int_100.
    assert (0 <= round (of_int c / of_int n)); [|lra].
    apply round_nonneg, Qdiv_nonneg.
    + apply round_nonneg, inject_Z_nonneg. lia.
    + apply round_pos. change 0 with (inject_Z 0). rewrite <- Zlt_Qlt. lia.
  - rewrite <- (share_percent_all n Hn). apply share_percent_mono; lia.
Qed.

Lemma share_percent_sorted (cs : list Z) (n : Z) :
  (1 <= n)%Z → Forall (λ c, 0 <= c)%Z cs → StronglySorted Z.ge cs →
  StronglySorted (λ a b, b <= a) ((λ c, share_percent c n) <$> cs).
Proof.
  intros Hn Hpos Hs. induction Hs as [|c cs Hs IH Hall]; [constructor|].
  apply Forall_cons in Hpos as [Hc Hpos]. cbn [fmap list_fmap]. constructor; [by apply IH|].
  apply Forall_fmap, Forall_forall. intros c' Hc'. simpl.
  rewrite Forall_forall in Hall, Hpos. apply share_percent_mono; [|done].
  split; [by apply Hpos|]. specialize (Hall c' Hc'). lia.
Qed.

End summary_order.

(** X6: every percentage of the summary table lies between 0 and 100, and the
    percentages, like the counts, do not increase down the table. *)
Theorem summary_percentages_ordered σ df T C vs :
  heap σ !! df = Some T → rectangular T → column T C = Some vs →
  ∃ t σ' labels counts pcts,
    create_class_distribution_table df C σ = Returns t σ' ∧
    heap σ' !! t = Some (summary_frame labels counts pcts) ∧
    Forall (λ p, 0 <= p ∧ p <= 100)%Q pcts ∧
    StronglySorted (λ a b, b <= a)%Q pcts.
Proof.
  intros Hdf Hr Hc. do 5 eexists.
  split; [apply (create_class_distribution_table_run σ df T C vs Hdf Hr Hc)|].
  cbn [heap]. split; [apply lookup_insert_eq|].
  pose proof (class_distribution_counts_bounded vs) as Hb.
  pose proof (length_dropna_le vs) as Hle.
  rewrite (nrows_column T C vs Hr Hc).
  destruct (s_values (sort_values_desc (value_counts vs))) as [|c cs] eqn:E.
  { split; constructor. }
  rewrite <- E in *.
  assert (Hn : 1 <= Z.of_nat (length vs)).
  { rewrite E in Hb. apply Forall_cons in Hb as [Hc1 _]. lia. }
  split.
  - apply Forall_fmap. eapply Forall_impl; [exact Hb|]. intros c' Hc'. simpl in *.
    apply share_percent_range; lia.
  - apply share_percent_sorted; [done| |apply class_distribution_sorted].
    eapply Forall_impl; [exact Hb|]. simpl. intros; lia.
Qed.

Lemma summary_percentages_ordered_witness :
  ∃ t σ' labels counts pcts,
    create_class_distribution_table 1%positive "label" (store with_gap) = Returns t σ' ∧
    heap σ' !! t = Some (summary_frame labels counts pcts) ∧
    Forall (λ p, 0 <= p ∧ p <= 100)%Q pcts ∧
    StronglySorted (λ a b, b <= a)%Q pcts.
Proof.
  apply (summary_percentages_ordered (store with_gap) 1%positive with_gap "label" [Str "a"; NA]).
  - reflexivity.
  - repeat constructor.
  - reflexivity.
Defined.



(** ** More on the comparison of two tables *)







(** ** The bar chart *)











Section bar_percentages.
Import Float64 Float64Facts.
Local Open Scope Q_scope.



End bar_percentages.



(** ** The pie chart *)

Section pie_threshold.
Import Float64 Float64Facts Float64Order.
Local Open Scope Q_scope.





End pie_threshold.




(** ** The line plot *)






(** ** The grouped bar chart *)

Section grouping.
Context {A : Type} `{EqDecision A}.





End grouping.

Section sorting_by_key.
Context {A : Type} (key : A → Z).



End sorting_by_key.




Lemma imap_pair_fst {B} (g : nat → nat) (l : list B) :
  (imap (λ i x, (g i, x)) l).*1 = g <$> seq 0 (length l).
Proof.
  revert g. induction l as [|x l IH]; intros g; [done|].
  cbn [imap fmap list_fmap fst length seq]. f_equal.
  rewrite <- fmap_S_seq, <- list_fmap_compose. apply (IH (g ∘ S)).
Qed.



Section group_sizes.
Variables vs1 vs2 : list cell.

(** The rows with both keys present. *)
Let present : list (cell * cell) :=
  filter (λ k : cell * cell, k.1 ≠ NA ∧ k.2 ≠ NA) (zip vs1 vs2).

Let distinct : list (cell * cell) :=
  foldl (λ acc k, if decide (k ∈ acc) then acc else acc ++ [k]) [] present.






End group_sizes.



